(** * Open MCP Gateway: registry, runtime layer, connection pool and
      lifecycle manager

    A shallow embedding of the Rust code that the developer documentation
    of the gateway gives for [gateway-core] and [gateway-http], with the
    properties of the lifecycle core stated and proved over it.

    Conventions of the embedding:
    - a Rust [HashMap<String, V>] is a [gmap string V];
    - a [Vec] or [VecDeque] is a [list] (front of the queue = head);
    - [Result<T, E>] is [Result T E]; a [panic!], [todo!] or an index out
      of bounds is the [Panic] outcome of [Outcome];
    - [Instant] and [Duration] are natural numbers of clock ticks ([N]);
      Rust's [Instant - Instant] saturates at zero and so does [N.sub];
    - a [u64] counter is an [N] whose increment is taken modulo [2^64];
    - the pipes of a child process carry bytes, a [string] of 8-bit
      characters; a Rust [String] read from or written to them is a
      [Text], bytes that are valid UTF-8;
    - an [async fn] is the function of its sequential body: every
      [.await] runs to completion before the next statement;
    - what the operating system or a backend answers (the result of
      [connect], of [Child::kill], of [close_all]) is an explicit input. *)

From Stdlib Require Import ZArith NArith List String Lia.
From stdpp Require Import base option list gmap strings fin_maps.

Local Open Scope string_scope.

(** ** Results, panics and options *)

Inductive Result (T E : Type) : Type :=
| Ok (t : T)
| Err (e : E).
Arguments Ok {T E} t.
Arguments Err {T E} e.

Inductive Outcome (A : Type) : Type :=
| Return (a : A)
| Panic (msg : string).
Arguments Return {A} a.
Arguments Panic {A} msg.

(** [Option::is_some] and [Option::is_none]. *)
Definition is_some {A : Type} (o : option A) : bool :=
  match o with Some _ => true | None => false end.

Definition is_none {A : Type} (o : option A) : bool := negb (is_some o).

(** [Option::map_or]. *)
Definition map_or {A B : Type} (o : option A) (default : B) (f : A -> B) : B :=
  match o with Some a => f a | None => default end.

(** [serde_json::Value]. *)
#[local] Set Warnings "-register-all".
Inductive Value : Type :=
| Null
| Bool (b : bool)
| Number (n : Z)
| String_ (s : string)
| Array (items : list Value)
| Object (fields : list (string * Value)).
#[local] Set Warnings "register-all".

(** ** Errors *)

(** [gateway-core/src/error.rs], with the [UnsupportedRuntime] variant that
    [RuntimeConfig::create_runtime] uses. *)
Inductive GatewayError : Type :=
| ServerNotFound (id : string)
| RuntimeError (msg : string)
| ConfigError (msg : string)
| UnsupportedRuntime (name : string).

(** [gateway-http/src/routes.rs]. *)
Inductive AppError : Type :=
| NotFound (msg : string)
| BadRequest (msg : string)
| Unauthorized (msg : string)
| Internal (msg : string)
| BadGateway (msg : string).

(** [format!("Server '{}' not found", id)]. *)
Definition server_not_found_message (id : string) : string :=
  String.append "Server '" (String.append id "' not found").

(** [impl From<GatewayError> for AppError]. The last arm of the source is
    [_ => AppError::Internal(e.to_string())]; the text of
    [UnsupportedRuntime] is not in the sources. *)
Definition AppError_from (e : GatewayError) : AppError :=
  match e with
  | ServerNotFound id => NotFound (server_not_found_message id)
  | RuntimeError msg => BadGateway msg
  | ConfigError msg => Internal msg
  | UnsupportedRuntime name => Internal (String.append "Unsupported runtime: " name)
  end.

(** The [?] operator in a handler: a [GatewayError] becomes an [AppError]. *)
Definition lift_gateway {T : Type} (r : Result T GatewayError) : Result T AppError :=
  match r with
  | Ok t => Ok t
  | Err e => Err (AppError_from e)
  end.

(** ** MCP messages *)

Module Message.

Record McpMessage : Type := {
  jsonrpc : string;
  id : option Value;
  method : option string;
  params : option Value;
  result : option Value;
  error : option Value
}.

Definition is_request (self : McpMessage) : bool :=
  is_some (method self) && is_some (id self).

Definition is_response (self : McpMessage) : bool :=
  is_some (result self) || is_some (error self).

Definition is_notification (self : McpMessage) : bool :=
  is_some (method self) && is_none (id self).

(** The request shape as the data-model invariant words it: a method is
    present (whatever the id). *)
Definition request_shape (self : McpMessage) : bool := is_some (method self).

(** Exactly one of three flags is set. *)
Definition exactly_one (a b c : bool) : bool :=
  match a, b, c with
  | true, false, false | false, true, false | false, false, true => true
  | _, _, _ => false
  end.

(** The message [{"jsonrpc": "2.0"}]. *)
Definition bare : McpMessage :=
  {| jsonrpc := "2.0"; id := None; method := None; params := None;
     result := None; error := None |}.

(** A message carrying an id, a method and a result at once. *)
Definition request_with_result : McpMessage :=
  {| jsonrpc := "2.0"; id := Some (Number 1); method := Some "tools/list";
     params := None; result := Some (Object []); error := None |}.

(** A notification. *)
Definition sample_notification : McpMessage :=
  {| jsonrpc := "2.0"; id := None; method := Some "notifications/event";
     params := None; result := None; error := None |}.

End Message.

(** ** Runtime layer *)

Module Runtime.

(** [gateway-core/src/config.rs]: the runtime variants of the
    architecture document, tagged in kebab case by serde. *)
Inductive RuntimeConfig : Type :=
| LocalProcess (command : string) (args : list string) (working_dir : option string)
| RemoteSse (url : string) (headers : gmap string string)
| Docker (image : string) (volumes : list string)
| K8sJob (namespace image : string)
| K8sService (namespace service : string).

Definition type_name (self : RuntimeConfig) : string :=
  match self with
  | LocalProcess _ _ _ => "local-process"
  | RemoteSse _ _ => "remote-sse"
  | Docker _ _ => "docker"
  | K8sJob _ _ => "k8s-job"
  | K8sService _ _ => "k8s-service"
  end.

(** What the gateway does to a child process, in the order it does it. *)
Inductive ChildAction : Type :=
| SignalTerminate            (* ask the process to exit (SIGTERM) *)
| WaitGrace (ticks : N)      (* wait for it to exit on its own *)
| ForceKill.                 (* tokio's [Child::kill]: SIGKILL *)

(** A spawned child: its pid and what the system will answer to a kill. *)
Record Child : Type := {
  pid : N;
  kill_result : Result unit string
}.

Record LocalProcessConnection : Type := {
  child : Child
}.

Record RemoteSseConnection : Type := {
  url : string;
  headers : gmap string string
}.

(** [Child::kill]: the forced kill is sent, the system answers. *)
Definition Child_kill (c : Child) : list ChildAction * Result unit GatewayError :=
  ([ForceKill],
   match kill_result c with
   | Ok _ => Ok tt
   | Err msg => Err (RuntimeError msg)
   end).

(** [LocalProcessConnection::close]: [self.child.kill().await?; Ok(())].
    Returns the actions performed on the child and the result. *)
Definition LocalProcessConnection_close (self : LocalProcessConnection)
  : list ChildAction * Result unit GatewayError :=
  let '(actions, r) := Child_kill (child self) in
  match r with
  | Err e => (actions, Err e)
  | Ok _ => (actions, Ok tt)
  end.

(** [RemoteSseConnection::close]: HTTP connections are stateless. *)
Definition RemoteSseConnection_close (self : RemoteSseConnection)
  : list ChildAction * Result unit GatewayError :=
  ([], Ok tt).

(** [Box<dyn BackendConnection>]. *)
Inductive BackendConnection : Type :=
| LocalConn (c : LocalProcessConnection)
| RemoteConn (c : RemoteSseConnection).

Definition close (self : BackendConnection) : list ChildAction * Result unit GatewayError :=
  match self with
  | LocalConn c => LocalProcessConnection_close c
  | RemoteConn c => RemoteSseConnection_close c
  end.

(** A graceful close starts by asking the process to terminate. *)
Definition starts_gracefully (actions : list ChildAction) : bool :=
  match actions with
  | SignalTerminate :: _ => true
  | _ => false
  end.

Definition sample_child : Child := {| pid := 4242; kill_result := Ok tt |}.
Definition sample_connection : LocalProcessConnection := {| child := sample_child |}.

End Runtime.

(** ** Connection pool *)

Module Pool.
Import Runtime.

Record ConnectionPool : Type := {
  connections : list BackendConnection;
  available : list nat;
  max_size : nat;
  runtime : RuntimeConfig
}.

(** [PooledConnection::new(idx, ..)]: the handle names its slot. *)
Record PooledConnection : Type := { idx : nat }.

Definition with_available (p : ConnectionPool) (a : list nat) : ConnectionPool :=
  {| connections := connections p; available := a;
     max_size := max_size p; runtime := runtime p |}.

Definition push_connection (p : ConnectionPool) (c : BackendConnection) : ConnectionPool :=
  {| connections := connections p ++ [c]; available := available p;
     max_size := max_size p; runtime := runtime p |}.

Definition todo_message : string :=
  "not yet implemented: Wait for available connection".

(** [ConnectionPool::get]. [connect] is what [self.runtime.connect()]
    answers if this call reaches it. *)
Definition get (connect : Result BackendConnection GatewayError) (self : ConnectionPool)
  : ConnectionPool * Outcome (Result PooledConnection GatewayError) :=
  match available self with
  | i :: rest =>
      (* self.available.pop_front() *)
      let self' := with_available self rest in
      if (i <? length (connections self'))%nat
      then (self', Return (Ok {| idx := i |}))
      else (self', Panic "index out of bounds")
  | [] =>
      if (length (connections self) <? max_size self)%nat
      then match connect with
           | Err e => (self, Return (Err e))
           | Ok conn =>
               let i := length (connections self) in
               (push_connection self conn, Return (Ok {| idx := i |}))
           end
      else (self, Panic todo_message)
  end.

(** [ConnectionPool::release]. *)
Definition release (self : ConnectionPool) (i : nat) : ConnectionPool :=
  with_available self (available self ++ [i]).

(** One operation on a pool, with the answer of the runtime for a [get]. *)
Inductive PoolOp : Type :=
| OpGet (connect : Result BackendConnection GatewayError)
| OpRelease (i : nat).

Definition step (p : ConnectionPool) (op : PoolOp) : ConnectionPool :=
  match op with
  | OpGet connect => fst (get connect p)
  | OpRelease i => release p i
  end.

Definition run (ops : list PoolOp) (p : ConnectionPool) : ConnectionPool :=
  fold_left step ops p.

(** The number of live connections of a pool. *)
Definition live (p : ConnectionPool) : nat := length (connections p).

(** No idle connection and as many connections as allowed. *)
Definition at_cap (p : ConnectionPool) : Prop :=
  available p = [] /\ (max_size p <= live p)%nat.

(** The pool holds no more connections than its bound. *)
Definition within_bound (p : ConnectionPool) : Prop := (live p <= max_size p)%nat.

Definition empty_pool (max : nat) (rt : RuntimeConfig) : ConnectionPool :=
  {| connections := []; available := []; max_size := max; runtime := rt |}.

Definition echo_runtime : RuntimeConfig := LocalProcess "echo-tool" [] None.

Definition fresh_connection : Result BackendConnection GatewayError :=
  Ok (LocalConn sample_connection).

(** A pool of one connection, checked out. *)
Definition busy_pool : ConnectionPool :=
  {| connections := [LocalConn sample_connection]; available := [];
     max_size := 1; runtime := echo_runtime |}.

End Pool.

(** ** Server registry *)

Module Registry.
Import Runtime.

(** [gateway-core/src/config.rs]. *)
Record ServerDefinition : Type := {
  id : string;
  display_name : string;
  description : option string;
  runtime : RuntimeConfig;
  env : gmap string string;
  tags : list string
}.

(** [gateway-core/src/registry.rs] declares the one field [servers:
    HashMap<String, ServerDefinition>].
    Modelled from the spec: [order] and [order_servers] are not in the
    declaration that the sources give, and no body of [ServerRegistry] is.
    They record what the spec says of a registry and a hash map alone does
    not keep: "all() → sequence of ServerDefinition (order: insertion order
    from the source catalog)" and "Invariant: no duplicate ids". [order]
    holds the ids in the order of their insertion, each once. *)
Record ServerRegistry : Type := {
  servers : gmap string ServerDefinition;
  order : list string;
  order_servers : NoDup order /\ forall k, k ∈ order <-> is_Some (servers !! k)
}.

(** The ids of a list of definitions in the order of their first
    insertion, after the ids [seen]. *)
Definition insertion_order (defs : list ServerDefinition) (seen : list string)
  : list string :=
  fold_left (fun o d => if decide (id d ∈ o) then o else (o ++ [id d])%list) defs seen.

(** Modelled from the spec: the body of [ServerRegistry::new] is not in
    the sources, only its calls [ServerRegistry::new(catalog.servers)]
    and the field it fills. The registry is "an immutable mapping from id
    to ServerDefinition, constructed atomically from a parsed catalog":
    every definition is inserted under its id, in catalog order, and an id
    keeps the place of its first insertion. *)
Program Definition new (defs : list ServerDefinition) : ServerRegistry :=
  {| servers := fold_left (fun m d => <[id d := d]> m) defs ∅;
     order := insertion_order defs [] |}.
Next Obligation.
  intros defs. unfold insertion_order.
  assert (H : forall (m : gmap string ServerDefinition) (o : list string),
            (NoDup o /\ forall k, k ∈ o <-> is_Some (m !! k)) ->
            NoDup (fold_left (fun o d => if decide (id d ∈ o) then o
                                         else (o ++ [id d])%list) defs o)
            /\ forall k,
                 k ∈ fold_left (fun o d => if decide (id d ∈ o) then o
                                           else (o ++ [id d])%list) defs o
                 <-> is_Some (fold_left (fun m d => <[id d := d]> m) defs m !! k)).
  { induction defs as [|d defs IH]; intros m o [Hnd Hdom]; [split; assumption|].
    cbn [fold_left]. apply IH. split.
    - destruct (decide (id d ∈ o)) as [Hin|Hnot]; [exact Hnd|].
      apply NoDup_app. split; [exact Hnd|]. split; [|apply NoDup_singleton].
      intros k Hk Hk'%list_elem_of_singleton. subst k. exact (Hnot Hk).
    - intros k. destruct (decide (k = id d)) as [->|Hne].
      + rewrite lookup_insert_eq. split; [intros _; eexists; reflexivity|].
        intros _. destruct (decide (id d ∈ o)) as [Hin|Hnot]; [exact Hin|].
        apply elem_of_app. right. apply list_elem_of_singleton. reflexivity.
      + rewrite lookup_insert_ne by congruence. rewrite <- Hdom.
        destruct (decide (id d ∈ o)) as [Hin|Hnot]; [reflexivity|].
        rewrite elem_of_app, list_elem_of_singleton. split; [|left; assumption].
        intros [Hk|Hk]; [exact Hk | contradiction]. }
  apply H. split; [apply NoDup_nil_2|].
  intros k. rewrite lookup_empty. split; [intros Hk%not_elem_of_nil; contradiction|].
  intros [x Hx]. discriminate Hx.
Qed.

(** Modelled from the spec: the body of [get] is not in the sources, only
    its signature: "get(id) → ServerDefinition | None", the lookup in the
    map. *)
Definition get (self : ServerRegistry) (k : string) : option ServerDefinition :=
  servers self !! k.

(** Modelled from the spec: the body of [contains] is not in the sources,
    only its calls: "contains(id) → bool". *)
Definition contains (self : ServerRegistry) (k : string) : bool :=
  is_some (get self k).

(** Modelled from the spec: the body of [all] is not in the sources, only
    its signature [all(&self) -> impl Iterator<Item = &ServerDefinition>]:
    "all() → sequence of ServerDefinition (order: insertion order from the
    source catalog, for deterministic listing)". It yields the definitions
    in the order in which their ids were inserted. *)
Definition all (self : ServerRegistry) : list ServerDefinition :=
  omap (fun k => servers self !! k) (order self).

(** Modelled from the spec: the body of [ids] is not in the sources, only
    its calls [old_registry.ids().collect()] into a [HashSet]: the ids of
    "an immutable mapping from id to ServerDefinition" are its keys. *)
Definition ids (self : ServerRegistry) : gset string := dom (servers self).

(** [s.tags.contains(tag)]. *)
Definition has_tag (d : ServerDefinition) (tag : string) : bool :=
  bool_decide (tag ∈ tags d).

Definition by_tag (self : ServerRegistry) (tag : string) : list ServerDefinition :=
  List.filter (fun d => has_tag d tag) (all self).

(** A definition with the key it is stored under. *)
Definition keyed (d : ServerDefinition) : string * ServerDefinition := (id d, d).

(** The ids of a catalog, in catalog order. *)
Definition catalog_ids (defs : list ServerDefinition) : list string := map id defs.

Definition definition (k command : string) : ServerDefinition :=
  {| id := k; display_name := k; description := None;
     runtime := LocalProcess command [] None; env := ∅; tags := [] |}.

Definition server_a : ServerDefinition := definition "a" "a-tool".
Definition server_b : ServerDefinition := definition "b" "b-tool".

End Registry.

(** ** Catalog loader and watcher *)

Module Catalog.
Import Runtime Registry.

(** Modelled from the spec: the loader ([load_catalog], [Catalog::load])
    is not in the sources; the documentation gives its validation table
    and its log lines. A raw runtime block is its [type] tag and its
    other keys. *)
Record RawRuntime : Type := {
  type_tag : string;
  options : gmap string Value
}.

(** Modelled from the spec: one entry of the [servers] list as parsed,
    before validation: [id] and [runtime] may be missing. *)
Record RawEntry : Type := {
  raw_id : option string;
  raw_display_name : option string;
  raw_description : option string;
  raw_runtime : option RawRuntime;
  raw_env : gmap string string;
  raw_tags : list string
}.

(** The rows of the validation table of the catalog documentation. *)
Inductive Violation : Type :=
| MissingId (index : nat)
| DuplicateId (k : string)
| MissingRuntime (k : string)
| UnknownRuntimeType (k type : string).

Inductive LoadError : Type :=
| ParseError (msg : string)
| ValidationError (v : Violation).

(** The five validation rules, in the order of the spec. *)
Inductive Rule : Type := RuleSyntax | RuleId | RuleUnique | RuleRuntime | RuleType.

Definition rule_of (e : LoadError) : Rule :=
  match e with
  | ParseError _ => RuleSyntax
  | ValidationError (MissingId _) => RuleId
  | ValidationError (DuplicateId _) => RuleUnique
  | ValidationError (MissingRuntime _) => RuleRuntime
  | ValidationError (UnknownRuntimeType _ _) => RuleType
  end.

(** The kebab-case tags of the variants of [RuntimeConfig]. *)
Definition recognized_types : list string :=
  ["local-process"; "remote-sse"; "docker"; "k8s-job"; "k8s-service"].

Definition str_option (o : gmap string Value) (k : string) : string :=
  match o !! k with Some (String_ s) => s | _ => "" end.

Definition opt_str_option (o : gmap string Value) (k : string) : option string :=
  match o !! k with Some (String_ s) => Some s | _ => None end.

Definition str_of (v : Value) : option string :=
  match v with String_ s => Some s | _ => None end.

Definition list_option (o : gmap string Value) (k : string) : list string :=
  match o !! k with Some (Array items) => omap str_of items | _ => [] end.

Definition map_option (o : gmap string Value) (k : string) : gmap string string :=
  match o !! k with
  | Some (Object fields) =>
      list_to_map (omap (fun kv => match str_of kv.2 with
                                   | Some s => Some (kv.1, s)
                                   | None => None
                                   end) fields)
  | _ => ∅
  end.

(** Modelled from the spec: the runtime block as a tagged variant. *)
Definition decode_runtime (r : RawRuntime) : option RuntimeConfig :=
  let o := options r in
  if String.eqb (type_tag r) "local-process" then
    Some (LocalProcess (str_option o "command") (list_option o "args")
                       (opt_str_option o "working_dir"))
  else if String.eqb (type_tag r) "remote-sse" then
    Some (RemoteSse (str_option o "url") (map_option o "headers"))
  else if String.eqb (type_tag r) "docker" then
    Some (Docker (str_option o "image") (list_option o "volumes"))
  else if String.eqb (type_tag r) "k8s-job" then
    Some (K8sJob (str_option o "namespace") (str_option o "image"))
  else if String.eqb (type_tag r) "k8s-service" then
    Some (K8sService (str_option o "namespace") (str_option o "service"))
  else None.

(** Modelled from the spec: "every server entry must have a non-empty
    id"; the check itself is not in the sources. *)
Definition has_id (e : RawEntry) : bool :=
  match raw_id e with
  | Some s => negb (String.eqb s "")
  | None => false
  end.

Definition entry_id (e : RawEntry) : string := default "" (raw_id e).

(** Modelled from the spec: rule (b) of the loader, which is not in the
    sources; the index of the first entry without a non-empty id, as in the
    message "Server at index <n> missing required field: id". *)
Fixpoint check_ids (index : nat) (entries : list RawEntry) : option nat :=
  match entries with
  | [] => None
  | e :: rest => if has_id e then check_ids (S index) rest else Some index
  end.

(** Modelled from the spec: rule (c) of the loader, which is not in the
    sources; the first id that was already seen, as in the message
    "Duplicate server ID: <id>". *)
Fixpoint check_unique (seen : gset string) (entries : list RawEntry) : option string :=
  match entries with
  | [] => None
  | e :: rest =>
      if bool_decide (entry_id e ∈ seen) then Some (entry_id e)
      else check_unique ({[entry_id e]} ∪ seen) rest
  end.

(** Modelled from the spec: rule (d) of the loader, which is not in the
    sources; the id of the first entry without a runtime block. *)
Fixpoint check_runtime (entries : list RawEntry) : option string :=
  match entries with
  | [] => None
  | e :: rest =>
      match raw_runtime e with
      | None => Some (entry_id e)
      | Some _ => check_runtime rest
      end
  end.

(** Modelled from the spec: rule (e) of the loader, which is not in the
    sources; the first entry whose runtime type is not recognized. *)
Fixpoint check_types (entries : list RawEntry) : option (string * string) :=
  match entries with
  | [] => None
  | e :: rest =>
      match raw_runtime e with
      | Some r =>
          if bool_decide (type_tag r ∈ recognized_types) then check_types rest
          else Some (entry_id e, type_tag r)
      | None => check_types rest
      end
  end.

(** Modelled from the spec: the conversion of a validated entry, which is
    not in the sources; [display_name] defaults to the id (catalog
    documentation). *)
Definition definition_of (e : RawEntry) : option ServerDefinition :=
  match raw_runtime e with
  | None => None
  | Some r =>
      match decode_runtime r with
      | None => None
      | Some rt =>
          Some {| id := entry_id e;
                  display_name := default (entry_id e) (raw_display_name e);
                  description := raw_description e;
                  runtime := rt;
                  env := raw_env e;
                  tags := raw_tags e |}
      end
  end.

(** Modelled from the spec: [load(source) → ServerRegistry |
    Fails(ParseError | ValidationError)], "validation rules, in order,
    first failure wins and the entire catalog is rejected". The source is
    what the parser of the structured format made of the file: a syntax
    error, or the list of raw entries. *)
Definition load (source : Result (list RawEntry) string) : Result ServerRegistry LoadError :=
  match source with
  | Err msg => Err (ParseError msg)
  | Ok entries =>
      match check_ids 0 entries with
      | Some i => Err (ValidationError (MissingId i))
      | None =>
      match check_unique ∅ entries with
      | Some k => Err (ValidationError (DuplicateId k))
      | None =>
      match check_runtime entries with
      | Some k => Err (ValidationError (MissingRuntime k))
      | None =>
      match check_types entries with
      | Some (k, t) => Err (ValidationError (UnknownRuntimeType k t))
      | None => Ok (Registry.new (omap definition_of entries))
      end end end end
  end.

(** The rules as properties of a parsed catalog. *)
Definition ids_present (entries : list RawEntry) : Prop :=
  Forall (fun e => has_id e = true) entries.

Definition ids_unique (entries : list RawEntry) : Prop :=
  NoDup (map entry_id entries).

Definition runtimes_present (entries : list RawEntry) : Prop :=
  Forall (fun e => is_Some (raw_runtime e)) entries.

Definition types_recognized (entries : list RawEntry) : Prop :=
  Forall (fun e => forall r, raw_runtime e = Some r -> type_tag r ∈ recognized_types) entries.

(** The first rule, in the order syntax, ids, uniqueness, runtime blocks,
    runtime types, that a catalog source breaks. *)
Inductive first_broken : Result (list RawEntry) string -> Rule -> Prop :=
| broken_syntax msg :
    first_broken (Err msg) RuleSyntax
| broken_id entries :
    ~ ids_present entries ->
    first_broken (Ok entries) RuleId
| broken_unique entries :
    ids_present entries -> ~ ids_unique entries ->
    first_broken (Ok entries) RuleUnique
| broken_runtime entries :
    ids_present entries -> ids_unique entries -> ~ runtimes_present entries ->
    first_broken (Ok entries) RuleRuntime
| broken_type entries :
    ids_present entries -> ids_unique entries -> runtimes_present entries ->
    ~ types_recognized entries ->
    first_broken (Ok entries) RuleType.

(** All five rules hold. *)
Inductive valid_source : Result (list RawEntry) string -> list RawEntry -> Prop :=
| valid_entries entries :
    ids_present entries -> ids_unique entries ->
    runtimes_present entries -> types_recognized entries ->
    valid_source (Ok entries) entries.

(** [CatalogWatcher] of the architecture document: the registry behind
    the lock is the only state the reload touches. *)
Record CatalogWatcher : Type := {
  catalog_path : string;
  registry : ServerRegistry
}.

(** [CatalogWatcher::reload]:
    [let new_registry = load_catalog(&self.catalog_path)?;
     *registry = Arc::new(new_registry);]
    [source] is what is read and parsed from [catalog_path]. *)
Definition reload (self : CatalogWatcher) (source : Result (list RawEntry) string)
  : CatalogWatcher * Result unit LoadError :=
  match load source with
  | Err e => (self, Err e)
  | Ok new_registry =>
      ({| catalog_path := catalog_path self; registry := new_registry |}, Ok tt)
  end.

Definition raw (k : option string) (type : option string) : RawEntry :=
  {| raw_id := k; raw_display_name := None; raw_description := None;
     raw_runtime := match type with
                    | Some t => Some {| type_tag := t; options := ∅ |}
                    | None => None
                    end;
     raw_env := ∅; raw_tags := [] |}.

(** The catalog of the spec's scenario: the id [x] twice. *)
Definition duplicate_catalog : Result (list RawEntry) string :=
  Ok [raw (Some "x") (Some "local-process"); raw (Some "x") (Some "local-process")].

Definition echo_catalog : Result (list RawEntry) string :=
  Ok [raw (Some "echo") (Some "local-process")].

Definition sample_watcher : CatalogWatcher :=
  {| catalog_path := "catalog.yaml";
     registry := Registry.new [server_a; server_b] |}.

End Catalog.

(** ** Lifecycle manager *)

Module Manager.
Import Runtime Pool Registry.

Inductive ServerStatus : Type :=
| Stopped
| Starting
| Running
| Unhealthy
| ShuttingDown.

#[global] Instance ServerStatus_eq_dec : EqDecision ServerStatus.
Proof. solve_decision. Defined.

Record ServerState : Type := {
  status : ServerStatus;
  started_at : option N;
  last_activity : N;
  request_count : N;
  error_count : N
}.

Record ManagerConfig : Type := {
  idle_timeout : N;
  health_check_interval : N;
  max_connections_per_server : nat;
  request_timeout : N
}.

(** [ServerManager]; the field [status] of the struct is [states] here,
    [status] being the field of [ServerState]. *)
Record ServerManager : Type := {
  registry : ServerRegistry;
  connections : gmap string ConnectionPool;
  states : gmap string ServerState;
  config : ManagerConfig
}.

Definition with_registry (m : ServerManager) (r : ServerRegistry) : ServerManager :=
  {| registry := r; connections := connections m; states := states m; config := config m |}.

Definition with_connections (m : ServerManager) (c : gmap string ConnectionPool)
  : ServerManager :=
  {| registry := registry m; connections := c; states := states m; config := config m |}.

Definition with_states (m : ServerManager) (s : gmap string ServerState) : ServerManager :=
  {| registry := registry m; connections := connections m; states := s; config := config m |}.

(** [state.status = ServerStatus::ShuttingDown]. *)
Definition set_shutting_down (s : ServerState) : ServerState :=
  {| status := ShuttingDown; started_at := started_at s;
     last_activity := last_activity s; request_count := request_count s;
     error_count := error_count s |}.

(** [state.status = ServerStatus::Stopped; state.started_at = None]. *)
Definition set_stopped (s : ServerState) : ServerState :=
  {| status := Stopped; started_at := None;
     last_activity := last_activity s; request_count := request_count s;
     error_count := error_count s |}.

(** [state.status = ServerStatus::Unhealthy]. *)
Definition set_unhealthy (s : ServerState) : ServerState :=
  {| status := Unhealthy; started_at := started_at s;
     last_activity := last_activity s; request_count := request_count s;
     error_count := error_count s |}.

(** [u64::MAX]. *)
Definition u64_max : N := 18446744073709551615.

(** [n += 1] on a [u64]: the sum modulo [2^64]. At [u64::MAX] the
    addition overflows: it wraps to 0 as written here, and panics instead
    in a build with overflow checks. *)
Definition u64_increment (n : N) : N := ((n + 1) mod (u64_max + 1))%N.

(** [state.last_activity = Instant::now(); state.request_count += 1]. *)
Definition touched (now : N) (s : ServerState) : ServerState :=
  {| status := status s; started_at := started_at s;
     last_activity := now; request_count := u64_increment (request_count s);
     error_count := error_count s |}.

(** [ServerManager::touch]. *)
Definition touch (m : ServerManager) (server_id : string) (now : N) : ServerManager :=
  with_states m (alter (touched now) server_id (states m)).

(** The status of a server that has a state, [None] otherwise. *)
Definition status_of (m : ServerManager) (server_id : string) : option ServerStatus :=
  status <$> states m !! server_id.

(** The number of live connections the manager holds for a server. *)
Definition pool_size (m : ServerManager) (server_id : string) : nat :=
  match connections m !! server_id with
  | Some pool => live pool
  | None => 0
  end.

Section Stop.

(** [ConnectionPool::close_all] is called but not given in the sources:
    its answer for a pool is a parameter. *)
Variable close_all : ConnectionPool -> Result unit GatewayError.

(** First block of [stop_server]: mark the server as shutting down. *)
Definition stop_mark_shutting_down (m : ServerManager) (server_id : string)
  : ServerManager :=
  with_states m (alter set_shutting_down server_id (states m)).

(** Second block: remove the pool from the map and close it. *)
Definition stop_close_connections (m : ServerManager) (server_id : string)
  : ServerManager * Result unit GatewayError :=
  match connections m !! server_id with
  | Some pool =>
      (with_connections m (delete server_id (connections m)), close_all pool)
  | None => (m, Ok tt)
  end.

(** Third block: the final status. *)
Definition stop_mark_stopped (m : ServerManager) (server_id : string) : ServerManager :=
  with_states m (alter set_stopped server_id (states m)).

(** [ServerManager::stop_server]: the [?] on [close_all] returns before
    the third block. *)
Definition stop_server (m : ServerManager) (server_id : string)
  : ServerManager * Result unit GatewayError :=
  let m1 := stop_mark_shutting_down m server_id in
  let '(m2, closed) := stop_close_connections m1 server_id in
  match closed with
  | Err e => (m2, Err e)
  | Ok _ => (stop_mark_stopped m2 server_id, Ok tt)
  end.

(** The state that [stop_server] leaves to a server, given its pool. *)
Definition state_after_stop (pool : option ConnectionPool) (s : ServerState) : ServerState :=
  match pool with
  | None => set_stopped s
  | Some p =>
      match close_all p with
      | Ok _ => set_stopped s
      | Err _ => set_shutting_down s
      end
  end.

(** Closing the pool of a server, if it has one, succeeds. *)
Definition closes_cleanly (m : ServerManager) (k : string) : Prop :=
  forall pool, connections m !! k = Some pool -> exists u, close_all pool = Ok u.

(** The manager states that [stop_server] goes through, one per block,
    the initial state first. *)
Definition stop_server_trace (m : ServerManager) (server_id : string)
  : list ServerManager :=
  let m1 := stop_mark_shutting_down m server_id in
  let '(m2, closed) := stop_close_connections m1 server_id in
  match closed with
  | Err e => [m; m1; m2]
  | Ok _ => [m; m1; m2; stop_mark_stopped m2 server_id]
  end.

(** The [stop_server] calls of a loop or of spawned tasks, one after the
    other; an error is logged with the id and the loop goes on. *)
Fixpoint stop_each (m : ServerManager) (server_ids : list string)
  : ServerManager * list (string * GatewayError) :=
  match server_ids with
  | [] => (m, [])
  | server_id :: rest =>
      let '(m1, r) := stop_server m server_id in
      let '(m2, errors) := stop_each m1 rest in
      match r with
      | Ok _ => (m2, errors)
      | Err e => (m2, (server_id, e) :: errors)
      end
  end.

(** [ServerManager::shutdown_all]: stops at the first error. *)
Fixpoint stop_all (m : ServerManager) (server_ids : list string)
  : ServerManager * Result unit GatewayError :=
  match server_ids with
  | [] => (m, Ok tt)
  | server_id :: rest =>
      let '(m', r) := stop_server m server_id in
      match r with
      | Err e => (m', Err e)
      | Ok _ => stop_all m' rest
      end
  end.

Definition shutdown_all (m : ServerManager) : ServerManager * Result unit GatewayError :=
  stop_all m (map_to_list (states m)).*1.

(** The condition of [check_idle_servers] on one state. *)
Definition is_idle (cfg : ManagerConfig) (now : N) (s : ServerState) : bool :=
  bool_decide (status s = Running) && (idle_timeout cfg <? now - last_activity s)%N.

(** [ServerManager::check_idle_servers]: the ids for which a
    [stop_server] task is spawned. *)
Definition check_idle_servers (m : ServerManager) (now : N) : list string :=
  (List.filter (fun kv => is_idle (config m) now kv.2) (map_to_list (states m))).*1.

(** One tick of the idle checker, its spawned tasks run to the end. *)
Definition idle_sweep (m : ServerManager) (now : N)
  : ServerManager * list (string * GatewayError) :=
  stop_each m (check_idle_servers m now).

(** The summary that [update_registry] logs. *)
Record ReloadSummary : Type := {
  added : nat;
  removed : nat;
  total : nat;
  failed_stops : list (string * GatewayError)
}.

(** [ServerManager::update_registry]. *)
Definition update_registry (m : ServerManager) (new_registry : ServerRegistry)
  : ServerManager * ReloadSummary :=
  let old_registry := registry m in
  let m0 := with_registry m new_registry in
  let old_ids := Registry.ids old_registry in
  let new_ids := Registry.ids new_registry in
  let removed_ids := elements (old_ids ∖ new_ids) in
  let '(m', errors) := stop_each m0 removed_ids in
  (m', {| added := size (new_ids ∖ old_ids);
          removed := length removed_ids;
          total := size new_ids;
          failed_stops := errors |}).

End Stop.

(** [ServerStats]; [last_activity] is read by the handlers of
    [gateway-http] and is therefore a field here. *)
Record ServerStats : Type := {
  stats_status : ServerStatus;
  stats_started_at : option N;
  stats_last_activity : N;
  stats_request_count : N;
  stats_error_count : N;
  uptime : option N
}.

Record ManagerStats : Type := {
  total_servers : nat;
  active_servers : nat;
  stats_servers : gmap string ServerStats
}.

Definition stats_of (now : N) (s : ServerState) : ServerStats :=
  {| stats_status := status s;
     stats_started_at := started_at s;
     stats_last_activity := last_activity s;
     stats_request_count := request_count s;
     stats_error_count := error_count s;
     uptime := (fun t => (now - t)%N) <$> started_at s |}.

(** [ServerManager::get_stats]: one entry per state of the manager. *)
Definition get_stats (m : ServerManager) (now : N) : ManagerStats :=
  {| total_servers := size (states m);
     active_servers :=
       length (List.filter (fun kv => bool_decide (status kv.2 = Running))
                           (map_to_list (states m)));
     stats_servers := stats_of now <$> states m |}.

(** Modelled from the spec: the body of [get_status] is not in the
    sources. "For all server ids not in the Registry, acquire and start
    return NotFound"; "initial state for any server id: Stopped"; a
    [ServerState] is "created lazily the first time a server is
    referenced". *)
Definition get_status (m : ServerManager) (server_id : string)
  : Result ServerStatus GatewayError :=
  match Registry.get (registry m) server_id with
  | None => Err (ServerNotFound server_id)
  | Some _ => Ok (default Stopped (status_of m server_id))
  end.

Section Acquire.

(** The bodies of [ServerManager::start_server] and [wait_for_ready]
    are not in the sources: they are parameters. *)
Variable start_server : ServerManager -> string -> ServerManager * Result unit GatewayError.
Variable wait_for_ready : ServerManager -> string -> ServerManager * Result unit GatewayError.

(** [ServerManager::get_connection]. [connect] is the answer of the
    runtime if the pool opens a connection, [now] the clock. *)
Definition get_connection (m : ServerManager) (server_id : string)
    (connect : Result BackendConnection GatewayError) (now : N)
  : ServerManager * Outcome (Result PooledConnection GatewayError) :=
  match get_status m server_id with
  | Err e => (m, Return (Err e))
  | Ok st =>
      let '(m1, started) :=
        if bool_decide (st = Stopped) then start_server m server_id else (m, Ok tt) in
      match started with
      | Err e => (m1, Return (Err e))
      | Ok _ =>
          let '(m2, ready) := wait_for_ready m1 server_id in
          match ready with
          | Err e => (m2, Return (Err e))
          | Ok _ =>
              match connections m2 !! server_id with
              | None => (m2, Return (Err (ServerNotFound server_id)))
              | Some pool =>
                  let '(pool', out) := Pool.get connect pool in
                  let m3 := with_connections m2 (<[server_id := pool']> (connections m2)) in
                  match out with
                  | Panic msg => (m3, Panic msg)
                  | Return (Err e) => (m3, Return (Err e))
                  | Return (Ok c) => (touch m3 server_id now, Return (Ok c))
                  end
              end
          end
      end
  end.

End Acquire.

Definition default_config : ManagerConfig :=
  {| idle_timeout := 300; health_check_interval := 30;
     max_connections_per_server := 10; request_timeout := 30 |}.

Definition running_since (t : N) : ServerState :=
  {| status := Running; started_at := Some t; last_activity := t;
     request_count := 1; error_count := 0 |}.

Definition one_connection (rt : RuntimeConfig) : ConnectionPool :=
  {| Pool.connections := [LocalConn sample_connection]; available := [0];
     max_size := 10; Pool.runtime := rt |}.

(** A [close_all] that succeeds and one that fails. *)
Definition close_ok (_ : ConnectionPool) : Result unit GatewayError := Ok tt.
Definition close_fails (_ : ConnectionPool) : Result unit GatewayError :=
  Err (RuntimeError "kill failed").

End Manager.

(** ** HTTP handlers *)

Module Http.
Import Runtime Pool Registry Manager.

Record ListParams : Type := { tag : option string }.

Record ServerInfo : Type := {
  info_id : string;
  info_display_name : string;
  info_description : option string;
  info_status : ServerStatus;
  info_tags : list string;
  info_runtime_type : string;
  info_started_at : option N;
  info_last_activity : option N;
  info_request_count : N
}.

Record ServerDetail : Type := {
  detail_id : string;
  detail_display_name : string;
  detail_description : option string;
  detail_status : ServerStatus;
  detail_runtime : RuntimeConfig;
  detail_env : gmap string string;
  detail_tags : list string;
  detail_started_at : option N;
  detail_last_activity : option N;
  detail_request_count : N;
  detail_uptime_seconds : option N
}.

(** The closure of [list_servers] that builds one [ServerInfo]. *)
Definition server_info (stats : ManagerStats) (server : ServerDefinition) : ServerInfo :=
  let server_stats := stats_servers stats !! Registry.id server in
  {| info_id := Registry.id server;
     info_display_name := display_name server;
     info_description := description server;
     info_status := default Stopped (stats_status <$> server_stats);
     info_tags := tags server;
     info_runtime_type := type_name (Registry.runtime server);
     info_started_at := server_stats ≫= stats_started_at;
     info_last_activity := stats_last_activity <$> server_stats;
     info_request_count := default 0%N (stats_request_count <$> server_stats) |}.

(** The tag filter of [list_servers]:
    [params.tag.as_ref().map_or(true, |tag| s.tags.contains(tag))]. *)
Definition tag_matches (params : ListParams) (s : ServerDefinition) : bool :=
  map_or (tag params) true (has_tag s).

(** [list_servers]. *)
Definition list_servers (m : ServerManager) (now : N) (params : ListParams)
  : Result (list ServerInfo) AppError :=
  let registry := Manager.registry m in
  let stats := get_stats m now in
  Ok (map (server_info stats) (List.filter (tag_matches params) (Registry.all registry))).

(** [get_server]. *)
Definition get_server (m : ServerManager) (now : N) (id : string)
  : Result ServerDetail AppError :=
  let registry := Manager.registry m in
  match Registry.get registry id with
  | None => Err (NotFound (server_not_found_message id))
  | Some server =>
      let stats := get_stats m now in
      let server_stats := stats_servers stats !! id in
      Ok {| detail_id := Registry.id server;
            detail_display_name := display_name server;
            detail_description := description server;
            detail_status := default Stopped (stats_status <$> server_stats);
            detail_runtime := Registry.runtime server;
            detail_env := env server;
            detail_tags := tags server;
            detail_started_at := server_stats ≫= stats_started_at;
            detail_last_activity := stats_last_activity <$> server_stats;
            detail_request_count := default 0%N (stats_request_count <$> server_stats);
            detail_uptime_seconds := server_stats ≫= uptime |}
  end.

(** What the handlers report for a server without statistics. *)
Definition reported_stopped (i : ServerInfo) : Prop :=
  info_status i = Stopped /\ info_request_count i = 0%N
  /\ info_started_at i = None /\ info_last_activity i = None.

Definition detailed_stopped (d : ServerDetail) : Prop :=
  detail_status d = Stopped /\ detail_request_count d = 0%N
  /\ detail_started_at d = None /\ detail_last_activity d = None.

(** The JSON body of the start and stop handlers. *)
Record StatusMessage : Type := {
  body_id : string;
  body_status : string;
  body_message : string
}.

Section Handlers.

Variable manager_start_server :
  ServerManager -> string -> ServerManager * Result unit GatewayError.
Variable wait_for_ready :
  ServerManager -> string -> ServerManager * Result unit GatewayError.
Variable close_all : ConnectionPool -> Result unit GatewayError.

(** [start_server] of [gateway-http/src/routes.rs]. *)
Definition start_server (m : ServerManager) (id : string)
  : ServerManager * Result StatusMessage AppError :=
  let registry := Manager.registry m in
  if negb (Registry.contains registry id) then
    (m, Err (NotFound (server_not_found_message id)))
  else
    match lift_gateway (get_status m id) with
    | Err e => (m, Err e)
    | Ok status =>
        if bool_decide (status = Running) then
          (m, Ok {| body_id := id; body_status := "running";
                    body_message := "Server already running" |})
        else
          let '(m', r) := manager_start_server m id in
          match lift_gateway r with
          | Err e => (m', Err e)
          | Ok _ =>
              (m', Ok {| body_id := id; body_status := "running";
                         body_message := "Server started successfully" |})
          end
    end.

(** [stop_server] of [gateway-http/src/routes.rs]. *)
Definition stop_server (m : ServerManager) (id : string)
  : ServerManager * Result StatusMessage AppError :=
  match lift_gateway (get_status m id) with
  | Err e => (m, Err e)
  | Ok status =>
      if bool_decide (status = Stopped) then
        (m, Ok {| body_id := id; body_status := "stopped";
                  body_message := "Server already stopped" |})
      else
        let '(m', r) := Manager.stop_server close_all m id in
        match lift_gateway r with
        | Err e => (m', Err e)
        | Ok _ =>
            (m', Ok {| body_id := id; body_status := "stopped";
                       body_message := "Server stopped successfully" |})
        end
  end.

(** The acquisition step of [mcp_request] and [rpc_request]:
    [state.manager.get_connection(&server_id).await?]. *)
Definition acquire (m : ServerManager) (server_id : string)
    (connect : Result BackendConnection GatewayError) (now : N)
  : ServerManager * Outcome (Result PooledConnection AppError) :=
  let '(m', out) :=
    get_connection manager_start_server wait_for_ready m server_id connect now in
  match out with
  | Panic msg => (m', Panic msg)
  | Return r => (m', Return (lift_gateway r))
  end.

End Handlers.

End Http.

(** ** Sample data *)

(** A manager that has just loaded the servers [a] and [b]. *)
Definition fresh_manager : Manager.ServerManager :=
  {| Manager.registry := Registry.new [Registry.server_a; Registry.server_b];
     Manager.connections := ∅; Manager.states := ∅;
     Manager.config := Manager.default_config |}.

(** A start routine that would start anything it is given. *)
Definition start_anything (m : Manager.ServerManager) (k : string)
  : Manager.ServerManager * Result unit GatewayError :=
  (Manager.with_states m (<[k := Manager.running_since 0]> (Manager.states m)), Ok tt).

Definition always_ready (m : Manager.ServerManager) (k : string)
  : Manager.ServerManager * Result unit GatewayError := (m, Ok tt).

(** Sample data: a manager serving [a] and [b], with [c] never used, and
    the catalog edited to drop [a], change [b] and add [d]. *)
Definition server_c : Registry.ServerDefinition := Registry.definition "c" "c-tool".
Definition server_d : Registry.ServerDefinition := Registry.definition "d" "d-tool".
Definition server_b_modified : Registry.ServerDefinition :=
  Registry.definition "b" "b-tool-v2".

Definition old_registry : Registry.ServerRegistry :=
  Registry.new [Registry.server_a; Registry.server_b; server_c].

Definition new_registry : Registry.ServerRegistry :=
  Registry.new [server_b_modified; server_c; server_d].

Definition serving_manager : Manager.ServerManager :=
  {| Manager.registry := old_registry;
     Manager.connections :=
       <["a" := Manager.one_connection (Registry.runtime Registry.server_a)]>
         (<["b" := Manager.one_connection (Registry.runtime Registry.server_b)]> ∅);
     Manager.states :=
       <["a" := Manager.running_since 0]> (<["b" := Manager.running_since 0]> ∅);
     Manager.config := Manager.default_config |}.

(** ** Authentication middleware *)

Module Auth.

(** A header value: text that [HeaderValue::to_str] accepts, or bytes
    that it rejects. *)
Inductive HeaderValue : Type :=
| Text (s : string)
| Opaque.

Definition to_str (v : HeaderValue) : option string :=
  match v with
  | Text s => Some s
  | Opaque => None
  end.

(** The part of an HTTP request that the middleware reads. A [HeaderMap]
    stores header names in lower case and looks them up without regard to
    case: the keys of [headers] are the lower-case names. *)
Record Request : Type := {
  path : string;
  headers : gmap string HeaderValue
}.

Record Response : Type := {
  status : nat;
  body : Value
}.

(** [str::strip_prefix]. *)
Fixpoint strip_prefix (prefix s : string) : option string :=
  match prefix with
  | EmptyString => Some s
  | String p prefix' =>
      match s with
      | EmptyString => None
      | String c s' => if Ascii.eqb p c then strip_prefix prefix' s' else None
      end
  end.

(** [request.headers().get(name).and_then(|v| v.to_str().ok())]. *)
Definition header (request : Request) (name : string) : option string :=
  headers request !! name ≫= to_str.

(** [auth_header.and_then(|h| h.strip_prefix("Bearer ")).or(api_key_header)]. *)
Definition provided_key (request : Request) : option string :=
  match header request "authorization" ≫= strip_prefix "Bearer " with
  | Some key => Some key
  | None => header request "x-api-key"
  end.

Definition forbidden : Response :=
  {| status := 403; body := Object [("error", String_ "Forbidden")] |}.

Definition unauthorized : Response :=
  {| status := 401; body := Object [("error", String_ "Unauthorized")] |}.

(** [AuthMiddleware::call]; [inner] is the service behind the middleware. *)
Definition call (inner : Request -> Response) (api_key : string) (request : Request)
  : Response :=
  if String.eqb (path request) "/health" then inner request
  else
    match provided_key request with
    | Some key => if String.eqb key api_key then inner request else forbidden
    | None => unauthorized
    end.

(** The layer is only added when an API key is configured:
    [if let Some(api_key) = config.api_key { router.layer(AuthLayer::new(api_key)) }
     else { router }]. *)
Definition protect (inner : Request -> Response) (api_key : option string)
  : Request -> Response :=
  match api_key with
  | Some key => call inner key
  | None => inner
  end.

Definition request_with (p : string) (hs : list (string * HeaderValue)) : Request :=
  {| path := p; headers := list_to_map hs |}.

(** A service that answers 200 to everything. *)
Definition ok_service (_ : Request) : Response := {| status := 200; body := Null |}.

End Auth.

(** ** HTTP status of errors *)

Module Status.

(** [StatusCode::canonical_reason] for the codes the gateway uses. *)
Definition canonical_reason (status : nat) : option string :=
  match status with
  | 400 => Some "Bad Request"
  | 401 => Some "Unauthorized"
  | 403 => Some "Forbidden"
  | 404 => Some "Not Found"
  | 500 => Some "Internal Server Error"
  | 502 => Some "Bad Gateway"
  | _ => None
  end%nat.

(** The JSON body of an error response. *)
Record ErrorBody : Type := {
  error : string;
  message : string
}.

(** [impl IntoResponse for AppError]. *)
Definition AppError_into_response (self : AppError) : nat * ErrorBody :=
  let '(status, msg) :=
    match self with
    | NotFound msg => (404, msg)
    | BadRequest msg => (400, msg)
    | Unauthorized msg => (401, msg)
    | Internal msg => (500, msg)
    | BadGateway msg => (502, msg)
    end%nat in
  (status, {| error := default "Error" (canonical_reason status); message := msg |}).

(** [impl IntoResponse for GatewayError] of the architecture document. *)
Definition GatewayError_into_response (self : GatewayError) : nat :=
  match self with
  | ServerNotFound _ => 404
  | RuntimeError _ => 502
  | _ => 500
  end%nat.

End Status.

(** ** Line protocol of a local process *)

Module Wire.

Definition newline_char : Ascii.ascii := Ascii.ascii_of_nat 10.
Definition newline : string := String newline_char EmptyString.

(** The pipes of a [LocalProcessConnection] carry bytes: [stdin] is what
    the gateway has written to the child so far, [stdout] what the child
    writes from now on, after which the stream ends. [stdin_error] and
    [stdout_error] are what the system answers to a write and to a read
    when it fails. *)
Record Pipes : Type := {
  stdin : string;
  stdin_error : option string;
  stdout : string;
  stdout_error : option string
}.

Definition with_stdin (p : Pipes) (written : string) : Pipes :=
  {| stdin := written; stdin_error := stdin_error p;
     stdout := stdout p; stdout_error := stdout_error p |}.

Definition with_stdout (p : Pipes) (pending : string) : Pipes :=
  {| stdin := stdin p; stdin_error := stdin_error p;
     stdout := pending; stdout_error := stdout_error p |}.

(** What a UTF-8 decoder waits for: the first byte of a character, one,
    two or three bytes in [80..BF], or the second byte of a character
    whose first byte narrows it: [A0..BF] after [E0], [80..9F] after [ED],
    [90..BF] after [F0], [80..8F] after [F4]. *)
Inductive Utf8State : Type :=
| Boundary
| Tail1
| Tail2
| Tail3
| AfterE0
| AfterED
| AfterF0
| AfterF4.

Definition between (lo hi b : N) : bool := ((lo <=? b) && (b <=? hi))%N.

(** One byte of [core::str::from_utf8]: the well-formed byte sequences of
    the Unicode standard, without overlong forms, surrogates and code
    points above [10FFFF]. *)
Definition utf8_step (st : Utf8State) (b : N) : option Utf8State :=
  match st with
  | Boundary =>
      if between 0 127 b then Some Boundary
      else if between 194 223 b then Some Tail1
      else if between 224 224 b then Some AfterE0
      else if between 237 237 b then Some AfterED
      else if between 225 239 b then Some Tail2
      else if between 240 240 b then Some AfterF0
      else if between 241 243 b then Some Tail3
      else if between 244 244 b then Some AfterF4
      else None
  | Tail1 => if between 128 191 b then Some Boundary else None
  | Tail2 => if between 128 191 b then Some Tail1 else None
  | Tail3 => if between 128 191 b then Some Tail2 else None
  | AfterE0 => if between 160 191 b then Some Tail1 else None
  | AfterED => if between 128 159 b then Some Tail1 else None
  | AfterF0 => if between 144 191 b then Some Tail2 else None
  | AfterF4 => if between 128 143 b then Some Tail2 else None
  end.

Fixpoint utf8_run (st : Utf8State) (bytes : string) : option Utf8State :=
  match bytes with
  | EmptyString => Some st
  | String c rest =>
      match utf8_step st (Ascii.N_of_ascii c) with
      | Some st' => utf8_run st' rest
      | None => None
      end
  end.

(** [core::str::from_utf8(bytes).is_ok()]. *)
Definition valid_utf8 (bytes : string) : bool :=
  match utf8_run Boundary bytes with
  | Some Boundary => true
  | _ => false
  end.

(** A Rust [String] or [&str]: bytes that are valid UTF-8. *)
Record Text : Type := {
  as_bytes : string;
  as_bytes_utf8 : valid_utf8 as_bytes = true
}.

(** [String::from_utf8(bytes).ok()]. *)
Definition from_utf8 (bytes : string) : option Text :=
  match decide (valid_utf8 bytes = true) with
  | left H => Some {| as_bytes := bytes; as_bytes_utf8 := H |}
  | right _ => None
  end.

(** The message of the [io::Error] of kind [InvalidData] with which
    [read_line] answers bytes that are not valid UTF-8. *)
Definition invalid_utf8 : string := "stream did not contain valid UTF-8".

(** [read_until(b'\n', ..)] inside [BufReader::read_line]: the bytes up to
    and including the first newline, or up to the end of the stream, and
    what is left. *)
Fixpoint read_line (pending : string) : string * string :=
  match pending with
  | EmptyString => (EmptyString, EmptyString)
  | String c rest =>
      if Ascii.eqb c newline_char then (String c EmptyString, rest)
      else let '(line, rest') := read_line rest in (String c line, rest')
  end.

(** No newline among the bytes. *)
Fixpoint single_line (s : string) : bool :=
  match s with
  | EmptyString => true
  | String c rest => negb (Ascii.eqb c newline_char) && single_line rest
  end.

Section Serde.

(** [serde_json::to_string], [serde_json::from_str] and the conversion of
    an I/O error by [?] are not in the sources: they are parameters. *)
Variable to_string : Message.McpMessage -> Result Text GatewayError.
Variable from_str : Text -> Result Message.McpMessage GatewayError.
Variable io_error : string -> GatewayError.

(** [LocalProcessConnection::send]. *)
Definition send (self : Pipes) (message : Message.McpMessage)
  : Pipes * Result unit GatewayError :=
  match to_string message with
  | Err e => (self, Err e)
  | Ok json =>
      match stdin_error self with
      | Some msg => (self, Err (io_error msg))
      | None =>
          ({| stdin := String.append (stdin self) (String.append (as_bytes json) newline);
              stdin_error := stdin_error self;
              stdout := stdout self;
              stdout_error := stdout_error self |}, Ok tt)
      end
  end.

(** [LocalProcessConnection::recv]. [read_line] takes the bytes of one
    line off the stream and fails, before anything is parsed, when they
    are not valid UTF-8. *)
Definition recv (self : Pipes) : Pipes * Result (option Message.McpMessage) GatewayError :=
  match stdout_error self with
  | Some msg => (self, Err (io_error msg))
  | None =>
      let '(bytes, rest) := read_line (stdout self) in
      if (String.length bytes =? 0)%nat then (self, Ok None)
      else
        let self' := {| stdin := stdin self; stdin_error := stdin_error self;
                        stdout := rest; stdout_error := stdout_error self |} in
        match from_utf8 bytes with
        | None => (self', Err (io_error invalid_utf8))
        | Some line =>
            match from_str line with
            | Err e => (self', Err e)
            | Ok message => (self', Ok (Some message))
            end
        end
  end.

(** What [recv] answers for the bytes of one line. *)
Definition answer (bytes : string) : Result (option Message.McpMessage) GatewayError :=
  match from_utf8 bytes with
  | None => Err (io_error invalid_utf8)
  | Some line =>
      match from_str line with
      | Err e => Err e
      | Ok message => Ok (Some message)
      end
  end.

(** Sending a list of messages, stopping at the first error. *)
Fixpoint send_all (self : Pipes) (messages : list Message.McpMessage)
  : Pipes * Result unit GatewayError :=
  match messages with
  | [] => (self, Ok tt)
  | message :: rest =>
      let '(self', r) := send self message in
      match r with
      | Err e => (self', Err e)
      | Ok _ => send_all self' rest
      end
  end.

(** Messages that survive a trip over the wire: the serialized text has
    no newline and parses back, with its newline, to the message. *)
Definition round_trips (message : Message.McpMessage) (json : Text) : Prop :=
  to_string message = Ok json /\ single_line (as_bytes json) = true
  /\ forall line : Text,
       as_bytes line = String.append (as_bytes json) newline ->
       from_str line = Ok message.

(** The answers of [n] successive calls of [recv]. *)
Fixpoint recv_each (n : nat) (self : Pipes)
  : Pipes * list (Result (option Message.McpMessage) GatewayError) :=
  match n with
  | O => (self, [])
  | S n' =>
      let '(self', r) := recv self in
      let '(self'', rs) := recv_each n' self' in
      (self'', r :: rs)
  end.

(** The bytes that a list of serialized messages makes on the wire. *)
Fixpoint frames (jsons : list Text) : string :=
  match jsons with
  | [] => EmptyString
  | json :: rest => String.append (as_bytes json) (String.append newline (frames rest))
  end.

End Serde.

Definition open_pipes (output : string) : Pipes :=
  {| stdin := EmptyString; stdin_error := None; stdout := output; stdout_error := None |}.

(** A toy serializer for examples: the method name, or [-]. *)
Definition method_to_string (m : Message.McpMessage) : Result Text GatewayError :=
  match from_utf8 (default "-" (Message.method m)) with
  | Some json => Ok json
  | None => Err (RuntimeError "method is not text")
  end.

(** A toy parser for examples: a line holding a method name. *)
Definition method_from_str (line : Text) : Result Message.McpMessage GatewayError :=
  let '(text, _) := read_line (as_bytes line) in
  match text with
  | EmptyString => Err (RuntimeError "empty line")
  | _ =>
      Ok {| Message.jsonrpc := "2.0"; Message.id := None;
            Message.method :=
              Some (String.substring 0 (String.length text - 1) text);
            Message.params := None; Message.result := None; Message.error := None |}
  end.

(** The text [notifications/event]. *)
Definition sample_text : Text :=
  {| as_bytes := "notifications/event"; as_bytes_utf8 := eq_refl |}.

(** The line [tools/list], with its newline. *)
Definition sample_line : Text :=
  {| as_bytes := String.append "tools/list" newline; as_bytes_utf8 := eq_refl |}.

(** Bytes that are no UTF-8: a lone byte [FF]. *)
Definition garbled : string := String (Ascii.ascii_of_nat 255) EmptyString.

End Wire.

(** ** Health checks *)

Module Health.
Import Runtime Pool Registry Manager.

Section Probe.

(** [ConnectionPool::is_healthy] is called but not given in the sources:
    its answer for a pool is a parameter. *)
Variable is_healthy : ConnectionPool -> bool.

(** [ServerManager::ping_server]. *)
Definition ping_server (m : ServerManager) (server_id : string) : bool :=
  match connections m !! server_id with
  | Some pool => is_healthy pool
  | None => false
  end.

(** The body of the loop of [check_server_health] for one entry of the
    status map. *)
Definition probe (m : ServerManager) (entry : string * ServerState) : ServerManager :=
  if bool_decide (status entry.2 = Running) then
    if ping_server m entry.1 then m
    else with_states m (alter set_unhealthy entry.1 (states m))
  else m.

(** What the loop does to the state of one server: Running with a failed
    ping becomes Unhealthy, anything else stays. *)
Definition probe_state (m : ServerManager) (server_id : string) (s : ServerState)
  : ServerState :=
  if bool_decide (status s = Running) && negb (ping_server m server_id)
  then set_unhealthy s else s.

(** [ServerManager::check_server_health]: the loop runs over the entries
    that the status map holds when the check starts; for an update the
    source drops its read guard and takes the write lock. *)
Definition check_server_health (m : ServerManager) : ServerManager :=
  fold_left probe (map_to_list (states m)) m.

End Probe.

Definition every_pool_healthy (_ : ConnectionPool) : bool := true.
Definition no_pool_healthy (_ : ConnectionPool) : bool := false.

End Health.

(** ** Message exchange and statistics handlers *)

Module Exchange.
Import Runtime Pool Registry Manager.

(** [McpRequest] of [gateway-http/src/routes.rs]. *)
Record McpRequest : Type := {
  server_id : string;
  jsonrpc : string;
  id : option Value;
  method : option string;
  params : option Value
}.

(** The message that [mcp_request] builds from the request. *)
Definition to_message (request : McpRequest) : Message.McpMessage :=
  {| Message.jsonrpc := jsonrpc request;
     Message.id := id request;
     Message.method := method request;
     Message.params := params request;
     Message.result := None;
     Message.error := None |}.

Definition no_response : AppError := Internal "No response from server".

(** [connection.send(&message).await?] and [connection.recv().await?
    .ok_or(..)?]: the answers of the connection are inputs. The first
    component lists the messages handed to [send]. *)
Definition exchange (message : Message.McpMessage)
    (send_result : Result unit GatewayError)
    (recv_result : Result (option Message.McpMessage) GatewayError)
  : list Message.McpMessage * Result Message.McpMessage AppError :=
  match lift_gateway send_result with
  | Err e => ([message], Err e)
  | Ok _ =>
      match lift_gateway recv_result with
      | Err e => ([message], Err e)
      | Ok None => ([message], Err no_response)
      | Ok (Some response) => ([message], Ok response)
      end
  end.

Section Handlers.

Variable manager_start_server :
  ServerManager -> string -> ServerManager * Result unit GatewayError.
Variable wait_for_ready :
  ServerManager -> string -> ServerManager * Result unit GatewayError.

(** The part shared by [mcp_request] and [rpc_request]: acquire a
    connection, send, receive. *)
Definition forward (m : ServerManager) (target : string) (message : Message.McpMessage)
    (connect : Result BackendConnection GatewayError) (now : N)
    (send_result : Result unit GatewayError)
    (recv_result : Result (option Message.McpMessage) GatewayError)
  : ServerManager * list Message.McpMessage
    * Outcome (Result Message.McpMessage AppError) :=
  let '(m', out) := Http.acquire manager_start_server wait_for_ready m target connect now in
  match out with
  | Panic msg => (m', [], Panic msg)
  | Return (Err e) => (m', [], Return (Err e))
  | Return (Ok _) =>
      let '(sent, r) := exchange message send_result recv_result in
      (m', sent, Return r)
  end.

(** [mcp_request]. *)
Definition mcp_request (m : ServerManager) (request : McpRequest)
    (connect : Result BackendConnection GatewayError) (now : N)
    (send_result : Result unit GatewayError)
    (recv_result : Result (option Message.McpMessage) GatewayError)
  : ServerManager * list Message.McpMessage
    * Outcome (Result Message.McpMessage AppError) :=
  forward m (server_id request) (to_message request) connect now send_result recv_result.

Definition header_required : AppError := BadRequest "X-Server-ID header required".

(** [rpc_request]: the server id comes from the [X-Server-ID] header. *)
Definition rpc_request (m : ServerManager) (headers : gmap string Auth.HeaderValue)
    (message : Message.McpMessage)
    (connect : Result BackendConnection GatewayError) (now : N)
    (send_result : Result unit GatewayError)
    (recv_result : Result (option Message.McpMessage) GatewayError)
  : ServerManager * list Message.McpMessage
    * Outcome (Result Message.McpMessage AppError) :=
  match headers !! "x-server-id" ≫= Auth.to_str with
  | None => (m, [], Return (Err header_required))
  | Some target => forward m target message connect now send_result recv_result
  end.

End Handlers.

(** One entry of the [servers] object of [stats]. *)
Record ServerStatsJson : Type := {
  json_status : ServerStatus;
  json_request_count : N;
  json_error_count : N;
  json_uptime_seconds : option N
}.

Record StatsBody : Type := {
  body_uptime_seconds : N;
  body_total_servers : nat;
  body_active_servers : nat;
  body_last_reload : option N;
  body_servers : gmap string ServerStatsJson
}.

Definition stats_json (s : ServerStats) : ServerStatsJson :=
  {| json_status := stats_status s;
     json_request_count := stats_request_count s;
     json_error_count := stats_error_count s;
     json_uptime_seconds := uptime s |}.

(** [stats]; [start_time] is when the gateway started and [last_reload]
    what the watcher reports. *)
Definition stats (m : ServerManager) (now start_time : N) (last_reload : option N)
  : Result StatsBody AppError :=
  let manager_stats := get_stats m now in
  Ok {| body_uptime_seconds := (now - start_time)%N;
        body_total_servers := total_servers manager_stats;
        body_active_servers := active_servers manager_stats;
        body_last_reload := last_reload;
        body_servers := stats_json <$> stats_servers manager_stats |}.

(** A request to list the tools of the server [a]. *)
Definition sample_request : McpRequest :=
  {| server_id := "a"; jsonrpc := "2.0"; id := Some (Number 1);
     method := Some "tools/list"; params := None |}.

(** Every definition of the registry is stored under its own id. *)
Definition well_keyed (r : ServerRegistry) : Prop :=
  forall k d, servers r !! k = Some d -> Registry.id d = k.

End Exchange.

(** * Properties *)

(** ** Message shapes *)

Section MessageShapes.
Import Message.

Lemma is_request_notification_exclusive (m : McpMessage) :
  is_request m && is_notification m = false.
Proof.
  unfold is_request, is_notification, is_none.
  destruct (method m), (id m); reflexivity.
Qed.

Lemma method_splits_request_notification (m : McpMessage) :
  is_some (method m) = xorb (is_request m) (is_notification m).
Proof.
  unfold is_request, is_notification, is_none.
  destruct (method m), (id m); reflexivity.
Qed.

(** C9, as amended. For every message, [is_request] (method and id
    present) and [is_notification] (method present, id absent) never hold
    together, and exactly one of [is_request], [is_response],
    [is_notification] holds precisely when the message carries a method
    or a result/error, but not both. *)
Theorem C9_shapes_exclusive_iff_method_xor_response (m : McpMessage) :
  is_request m && is_notification m = false
  /\ exactly_one (is_request m) (is_response m) (is_notification m)
     = xorb (is_some (method m)) (is_response m).
Proof.
  split; [apply is_request_notification_exclusive|].
  unfold is_request, is_response, is_notification, is_none.
  destruct (method m), (id m), (result m), (error m); reflexivity.
Qed.

(** C9, refuted as stated. The message [{"jsonrpc": "2.0"}] has none of
    the three shapes, whether the request shape is "method present" or
    [is_request]; a notification has two shapes when the request shape is
    "method present"; a message with id, method and result is both a
    request and a response. *)
Lemma C9_counterexample_shapes_not_exactly_one :
  exactly_one (request_shape bare) (is_response bare) (is_notification bare) = false
  /\ exactly_one (is_request bare) (is_response bare) (is_notification bare) = false
  /\ request_shape sample_notification && is_notification sample_notification = true
  /\ is_request request_with_result && is_response request_with_result = true.
Proof. repeat split. Qed.

End MessageShapes.

(** ** Closing a local process connection *)

Section LocalProcessClose.
Import Runtime.

(** C8, on the code: for every local-process connection, [close]
    performs exactly one action on the child, the forced kill; no
    termination request precedes it, whatever the system answers. *)
Theorem C8_close_force_kills_first (c : LocalProcessConnection) :
  fst (LocalProcessConnection_close c) = [ForceKill]
  /\ starts_gracefully (fst (LocalProcessConnection_close c)) = false
  /\ SignalTerminate ∉ fst (LocalProcessConnection_close c).
Proof.
  unfold LocalProcessConnection_close, Child_kill.
  destruct (kill_result (child c)); cbn; repeat split;
    intros H; apply list_elem_of_In in H; cbn in H; intuition discriminate.
Qed.

End LocalProcessClose.

(** ** The bound of the connection pool *)

Section PoolBound.
Import Runtime Pool.

Example get_opens_first_connection :
  get fresh_connection (empty_pool 1 echo_runtime)
  = (busy_pool, Return (Ok {| idx := 0 |})).
Proof. reflexivity. Qed.

Example get_reuses_released_connection :
  get fresh_connection (release busy_pool 0) = (busy_pool, Return (Ok {| idx := 0 |})).
Proof. reflexivity. Qed.

Example get_surfaces_connect_error :
  get (Err (RuntimeError "spawn failed")) (empty_pool 1 echo_runtime)
  = (empty_pool 1 echo_runtime, Return (Err (RuntimeError "spawn failed"))).
Proof. reflexivity. Qed.

Lemma get_max_size connect p : max_size (fst (get connect p)) = max_size p.
Proof.
  unfold get. destruct (available p) as [|i rest].
  - destruct (length (connections p) <? max_size p)%nat; [|reflexivity].
    destruct connect; reflexivity.
  - destruct (i <? _)%nat; reflexivity.
Qed.

Lemma get_within_bound connect p : within_bound p -> within_bound (fst (get connect p)).
Proof.
  unfold within_bound, live, get. intros Hb.
  destruct (available p) as [|i rest].
  - destruct (Nat.ltb_spec (length (connections p)) (max_size p)) as [Hlt|Hge]; [|exact Hb].
    destruct connect as [conn|e]; [|exact Hb].
    cbn [fst push_connection connections max_size].
    rewrite length_app. cbn [length]. lia.
  - destruct (i <? _)%nat; exact Hb.
Qed.

Lemma step_within_bound p op : within_bound p -> within_bound (step p op).
Proof.
  destruct op as [connect|i]; cbn.
  - apply get_within_bound.
  - intros Hb. exact Hb.
Qed.

Lemma step_max_size p op : max_size (step p op) = max_size p.
Proof. destruct op; cbn; [apply get_max_size | reflexivity]. Qed.

Lemma run_within_bound ops : forall p,
  within_bound p -> within_bound (run ops p) /\ max_size (run ops p) = max_size p.
Proof.
  unfold run. induction ops as [|op ops IH]; intros p Hb; cbn.
  - split; [exact Hb | reflexivity].
  - destruct (IH (step p op) (step_within_bound p op Hb)) as [H1 H2].
    split; [exact H1 | rewrite H2; apply step_max_size].
Qed.

(** The number of connections a [get] adds: at most one, and none when
    the pool has an idle connection or is full. *)
Lemma get_at_cap connect p : at_cap p -> get connect p = (p, Panic todo_message).
Proof.
  unfold at_cap, live, get. intros [Ha Hc]. rewrite Ha.
  destruct (Nat.ltb_spec (length (connections p)) (max_size p)); [lia | reflexivity].
Qed.

(** C4, on the code. Along every sequence of [get] and [release]
    operations, whatever the runtime answers, a pool that starts within
    its bound stays within it and keeps its bound. A [get] on a pool at
    the cap with no idle connection opens no connection and leaves the
    pool as it is, but it neither waits nor returns an error: it reaches
    the [todo!] of the waiting branch and panics. *)
Theorem C4_pool_bounded_get_at_cap_panics (p : ConnectionPool) :
  (within_bound p ->
   forall ops, (live (run ops p) <= max_size p)%nat /\ max_size (run ops p) = max_size p)
  /\ (at_cap p ->
      forall connect, get connect p = (p, Panic todo_message)).
Proof.
  split.
  - intros Hb ops. destruct (run_within_bound ops p Hb) as [H1 H2].
    split; [|exact H2]. unfold within_bound in H1. rewrite H2 in H1. exact H1.
  - intros Hc connect. apply get_at_cap, Hc.
Qed.

(** Three callers on a pool of size one: one connection, then a panic. *)
Lemma C4_witness_busy_pool :
  (live (run [OpGet fresh_connection; OpGet fresh_connection; OpRelease 0;
              OpGet fresh_connection] (empty_pool 1 echo_runtime)) <= 1)%nat
  /\ get fresh_connection busy_pool = (busy_pool, Panic todo_message).
Proof.
  split.
  - apply (proj1 (C4_pool_bounded_get_at_cap_panics (empty_pool 1 echo_runtime))).
    unfold within_bound, live; cbn; lia.
  - apply (proj2 (C4_pool_bounded_get_at_cap_panics busy_pool)).
    unfold at_cap, live; cbn; split; [reflexivity | lia].
Defined.

End PoolBound.

(** ** The listing order of the registry *)

Section RegistryListing.
Import Runtime Registry.

Lemma keyed_fst defs : (map keyed defs).*1 = catalog_ids defs.
Proof. unfold catalog_ids. induction defs as [|d defs IH]; cbn; [|rewrite IH]; reflexivity. Qed.

(** With unique ids, inserting in catalog order builds the map of the
    catalog's (id, definition) pairs. *)
Lemma insert_all_unique defs : forall m0 : gmap string ServerDefinition,
  NoDup (catalog_ids defs) ->
  fold_left (fun m d => <[id d := d]> m) defs m0 = list_to_map (map keyed defs) ∪ m0.
Proof.
  induction defs as [|d defs IH]; intros m0 Hnd; cbn.
  - symmetry. apply (left_id_L ∅ (∪)).
  - apply NoDup_cons in Hnd as [Hnotin Hnd].
    rewrite (IH _ Hnd).
    rewrite <- insert_union_r; [rewrite insert_union_l; reflexivity|].
    apply not_elem_of_list_to_map_1. rewrite keyed_fst. exact Hnotin.
Qed.

Lemma new_unique defs :
  NoDup (catalog_ids defs) -> servers (new defs) = list_to_map (map keyed defs).
Proof.
  intros Hnd. unfold new; cbn. rewrite (insert_all_unique defs ∅ Hnd).
  apply (right_id_L ∅ (∪)).
Qed.

(** Every definition of the map is listed, and nothing else. *)
Lemma elem_of_all (r : ServerRegistry) (server : ServerDefinition) :
  server ∈ all r <-> exists k, servers r !! k = Some server.
Proof.
  unfold all. rewrite list_elem_of_omap. split.
  - intros [k [_ Hk]]. exists k. exact Hk.
  - intros [k Hk]. exists k. split; [|exact Hk].
    apply (proj2 (order_servers r)). rewrite Hk. eexists. reflexivity.
Qed.

Lemma length_omap_total {A B} (f : A -> option B) (l : list A) :
  (forall x, x ∈ l -> is_Some (f x)) -> length (omap f l) = length l.
Proof.
  induction l as [|x l IH]; intros H; [reflexivity|].
  cbn. destruct (H x (list_elem_of_here _ _)) as [y ->]. cbn. f_equal.
  apply IH. intros z Hz. apply H, list_elem_of_further, Hz.
Qed.

(** The listing has one entry for each key of the map. *)
Lemma length_all (r : ServerRegistry) : length (all r) = size (servers r).
Proof.
  destruct (order_servers r) as [Hnd Hdom]. unfold all.
  rewrite length_omap_total by (intros k Hk; apply Hdom, Hk).
  rewrite <- size_dom.
  replace (dom (servers r)) with (list_to_set (order r) : gset string).
  - symmetry. apply size_list_to_set, Hnd.
  - apply set_eq. intros k. rewrite elem_of_list_to_set, elem_of_dom. apply Hdom.
Qed.

(** With unique ids, the ids are inserted in catalog order. *)
Lemma insertion_order_unique defs : forall seen : list string,
  NoDup (seen ++ catalog_ids defs) ->
  insertion_order defs seen = (seen ++ catalog_ids defs)%list.
Proof.
  unfold insertion_order, catalog_ids.
  induction defs as [|d defs IH]; intros seen Hnd; cbn.
  - symmetry. apply app_nil_r.
  - destruct (decide (id d ∈ seen)) as [Hin|Hnot].
    + exfalso. apply NoDup_app in Hnd as (_ & Hdisj & _).
      apply (Hdisj (id d) Hin), list_elem_of_here.
    + rewrite IH; rewrite <- app_assoc; [reflexivity | exact Hnd].
Qed.

Lemma lookup_keyed defs : forall d,
  NoDup (catalog_ids defs) -> d ∈ defs ->
  (list_to_map (map keyed defs) : gmap string ServerDefinition) !! id d = Some d.
Proof.
  intros d Hnd Hin. apply elem_of_list_to_map; [rewrite keyed_fst; exact Hnd|].
  apply list_elem_of_fmap. exists d. split; [reflexivity | exact Hin].
Qed.

Lemma omap_lookup_ids (m : gmap string ServerDefinition) (defs : list ServerDefinition) :
  (forall d, d ∈ defs -> m !! id d = Some d) ->
  omap (fun k => m !! k) (catalog_ids defs) = defs.
Proof.
  unfold catalog_ids. induction defs as [|d defs IH]; intros H; [reflexivity|].
  cbn. rewrite (H d (list_elem_of_here _ _)). cbn. f_equal.
  apply IH. intros d' Hd'. apply H, list_elem_of_further, Hd'.
Qed.

(** With unique ids, the listing of the registry built from a catalog is
    the catalog. *)
Lemma all_new defs : NoDup (catalog_ids defs) -> all (new defs) = defs.
Proof.
  intros Hnd. unfold all. rewrite (new_unique defs Hnd).
  change (order (new defs)) with (insertion_order defs []).
  rewrite (insertion_order_unique defs [] Hnd). cbn [app].
  apply omap_lookup_ids. intros d Hd. apply lookup_keyed; assumption.
Qed.

Lemma get_new_unique defs d :
  NoDup (catalog_ids defs) -> d ∈ defs -> get (new defs) (id d) = Some d.
Proof.
  intros Hnd Hin. unfold get. rewrite (new_unique defs Hnd).
  apply elem_of_list_to_map; [rewrite keyed_fst; exact Hnd|].
  apply list_elem_of_fmap. exists d. split; [reflexivity | exact Hin].
Qed.

Lemma ids_new_unique defs :
  NoDup (catalog_ids defs) -> ids (new defs) = list_to_set (catalog_ids defs).
Proof.
  intros Hnd. unfold ids. rewrite (new_unique defs Hnd).
  rewrite dom_list_to_map_L, keyed_fst. reflexivity.
Qed.

Lemma unique_pair (a b : ServerDefinition) :
  id a <> id b -> NoDup (catalog_ids [a; b]).
Proof.
  intros Hne. cbn. apply NoDup_cons; split; [|apply NoDup_singleton].
  intros Hin%list_elem_of_singleton. exact (Hne Hin).
Qed.

End RegistryListing.

(** ** Servers that were never referenced *)

Section NeverReferenced.
Import Runtime Registry Manager Http.

(** A server without a [ServerState] has no entry in the statistics. *)
Lemma get_stats_no_state (m : ServerManager) (now : N) (k : string) :
  states m !! k = None -> stats_servers (get_stats m now) !! k = None.
Proof. intros H. cbn. rewrite lookup_fmap, H. reflexivity. Qed.

Lemma server_info_no_state (m : ServerManager) (now : N) (server : ServerDefinition) :
  states m !! id server = None ->
  info_id (server_info (get_stats m now) server) = id server
  /\ reported_stopped (server_info (get_stats m now) server).
Proof.
  intros H. unfold reported_stopped, server_info.
  rewrite (get_stats_no_state m now _ H). cbn. repeat split.
Qed.

(** C10. For every server of the registry that has no [ServerState] yet:
    [list_servers] succeeds and, unless a tag filter excludes the server,
    its answer holds the entry of that server, with status stopped, request
    count 0 and neither [started_at] nor [last_activity]; [get_server]
    succeeds on its id with the same four values. *)
Theorem C10_unreferenced_server_reported_stopped
    (m : ServerManager) (now : N) (params : ListParams)
    (k : string) (server : ServerDefinition) :
  get (registry m) k = Some server ->
  id server = k ->
  states m !! k = None ->
  (tag_matches params server = true ->
   exists infos i,
     list_servers m now params = Ok infos
     /\ i ∈ infos /\ info_id i = k /\ reported_stopped i)
  /\ (exists d,
        get_server m now k = Ok d /\ detail_id d = k /\ detailed_stopped d).
Proof.
  intros Hget Hid Hnone. split.
  - intros Htag.
    exists (map (server_info (get_stats m now))
                (List.filter (tag_matches params) (all (registry m)))).
    exists (server_info (get_stats m now) server).
    split; [reflexivity|].
    rewrite <- Hid in Hnone.
    destruct (server_info_no_state m now server Hnone) as [Hi Hs].
    split; [|split; [congruence | exact Hs]].
    apply list_elem_of_fmap. exists server. split; [reflexivity|].
    apply list_elem_of_In, filter_In. split; [|exact Htag].
    apply list_elem_of_In, elem_of_all. exists k. exact Hget.
  - unfold get_server. rewrite Hget.
    rewrite (get_stats_no_state m now _ Hnone).
    eexists. split; [reflexivity|]. cbn. repeat split. exact Hid.
Qed.

Lemma C10_witness_fresh_manager :
  (exists infos i,
     list_servers fresh_manager 1000 {| tag := None |} = Ok infos
     /\ i ∈ infos /\ info_id i = "a" /\ reported_stopped i)
  /\ (exists d,
        get_server fresh_manager 1000 "a" = Ok d
        /\ detail_id d = "a" /\ detailed_stopped d).
Proof.
  destruct (C10_unreferenced_server_reported_stopped
              fresh_manager 1000 {| tag := None |} "a" server_a) as [Hl Hg].
  - apply (get_new_unique [server_a; server_b] server_a).
    + apply unique_pair. discriminate.
    + apply list_elem_of_here.
  - reflexivity.
  - apply lookup_empty.
  - split; [apply Hl; reflexivity | exact Hg].
Defined.

End NeverReferenced.

(** ** Unknown server ids *)

Section UnknownServer.
Import Runtime Pool Registry Manager.

Variable start_server : ServerManager -> string -> ServerManager * Result unit GatewayError.
Variable wait_for_ready : ServerManager -> string -> ServerManager * Result unit GatewayError.

(** C6. For every id that the registry does not hold and whatever the
    manager's own start and readiness routines do: the [start_server]
    handler answers NotFound, [get_connection] answers [ServerNotFound],
    which the request handlers turn into NotFound, and in each case the
    manager is returned exactly as it was. *)
Theorem C6_unknown_id_not_found
    (m : ServerManager) (k : string)
    (connect : Result BackendConnection GatewayError) (now : N) :
  get (registry m) k = None ->
  Http.start_server start_server m k = (m, Err (NotFound (server_not_found_message k)))
  /\ get_connection start_server wait_for_ready m k connect now
     = (m, Return (Err (ServerNotFound k)))
  /\ Http.acquire start_server wait_for_ready m k connect now
     = (m, Return (Err (NotFound (server_not_found_message k)))).
Proof.
  intros Hnone.
  assert (Hconn : get_connection start_server wait_for_ready m k connect now
                  = (m, Return (Err (ServerNotFound k)))).
  { unfold get_connection, get_status. rewrite Hnone. reflexivity. }
  split; [|split; [exact Hconn|]].
  - unfold Http.start_server, contains. rewrite Hnone. reflexivity.
  - unfold Http.acquire. rewrite Hconn. reflexivity.
Qed.

End UnknownServer.

Lemma C6_witness_unknown_id :
  Http.start_server start_anything fresh_manager "ghost"
  = (fresh_manager, Err (NotFound "Server 'ghost' not found"))
  /\ Manager.get_connection start_anything always_ready fresh_manager "ghost"
       Pool.fresh_connection 1000
     = (fresh_manager, Return (Err (ServerNotFound "ghost")))
  /\ Http.acquire start_anything always_ready fresh_manager "ghost"
       Pool.fresh_connection 1000
     = (fresh_manager, Return (Err (NotFound "Server 'ghost' not found"))).
Proof.
  apply (C6_unknown_id_not_found start_anything always_ready fresh_manager "ghost").
  unfold Registry.get, fresh_manager. cbn [Manager.registry].
  rewrite (new_unique [Registry.server_a; Registry.server_b])
    by (apply unique_pair; discriminate).
  apply not_elem_of_list_to_map_1. cbn.
  intros H. apply list_elem_of_In in H. cbn in H. intuition discriminate.
Defined.

(** ** Catalog validation and failed reloads *)

Section CatalogValidation.
Import Runtime Registry Catalog.

Example load_duplicate_catalog :
  load duplicate_catalog = Err (ValidationError (DuplicateId "x")).
Proof. vm_compute. reflexivity. Qed.

(** The rules are ordered, not the entries: a missing id in the second
    entry is reported before the missing runtime of the first. *)
Example load_reports_id_before_runtime :
  load (Ok [raw (Some "a") None; raw None (Some "local-process")])
  = Err (ValidationError (MissingId 1)).
Proof. vm_compute. reflexivity. Qed.

Example load_reports_duplicate_before_type :
  load (Ok [raw (Some "a") (Some "unknown"); raw (Some "a") (Some "local-process")])
  = Err (ValidationError (DuplicateId "a")).
Proof. vm_compute. reflexivity. Qed.

Example load_unknown_type :
  load (Ok [raw (Some "my-server") (Some "unknown")])
  = Err (ValidationError (UnknownRuntimeType "my-server" "unknown")).
Proof. vm_compute. reflexivity. Qed.

Example load_syntax_error :
  load (Err "expected ':' at line 5") = Err (ParseError "expected ':' at line 5").
Proof. reflexivity. Qed.

Lemma check_ids_none entries : forall index,
  check_ids index entries = None <-> ids_present entries.
Proof.
  unfold ids_present. induction entries as [|e rest IH]; intros index; cbn.
  - split; [constructor | reflexivity].
  - destruct (has_id e) eqn:He.
    + rewrite IH. split.
      * intros H. constructor; assumption.
      * intros H. apply Forall_cons in H as [_ H]. exact H.
    + split; [discriminate|].
      intros H. apply Forall_cons in H as [H _]. congruence.
Qed.

(** The reported index is that of the first entry without an id. *)
Lemma check_ids_some entries : forall index i,
  check_ids index entries = Some i ->
  exists n e, i = (index + n)%nat /\ entries !! n = Some e /\ has_id e = false
              /\ ids_present (take n entries).
Proof.
  induction entries as [|e rest IH]; intros index i; cbn; [discriminate|].
  destruct (has_id e) eqn:He.
  - intros H. destruct (IH _ _ H) as (n & e' & Hi & Hl & Hf & Hp).
    exists (S n), e'. repeat split; [lia | exact Hl | exact Hf|].
    cbn. constructor; assumption.
  - intros [= <-]. exists 0%nat, e. repeat split; [lia | exact He | constructor].
Qed.

Lemma check_unique_none entries : forall seen : gset string,
  check_unique seen entries = None
  <-> NoDup (map entry_id entries) /\ (forall k, k ∈ map entry_id entries -> k ∉ seen).
Proof.
  induction entries as [|e rest IH]; intros seen; cbn.
  - split; [|reflexivity]. intros _. split; [constructor|].
    intros k Hk. apply not_elem_of_nil in Hk. contradiction.
  - case_bool_decide as Hseen.
    + split; [discriminate|]. intros [_ H]. exfalso.
      apply (H (entry_id e)); [apply list_elem_of_here | exact Hseen].
    + rewrite IH. split.
      * intros [Hnd Hfresh]. split.
        -- apply NoDup_cons. split; [|exact Hnd].
           intros Hin. apply (Hfresh _ Hin).
           apply elem_of_union_l, elem_of_singleton. reflexivity.
        -- intros k Hk. apply elem_of_cons in Hk as [->|Hk]; [exact Hseen|].
           intros Hks. apply (Hfresh _ Hk). apply elem_of_union_r, Hks.
      * intros [Hnd Hfresh]. apply NoDup_cons in Hnd as [Hnotin Hnd].
        split; [exact Hnd|]. intros k Hk Hks.
        apply elem_of_union in Hks as [Hks%elem_of_singleton|Hks].
        -- subst k. contradiction.
        -- apply (Hfresh k); [apply list_elem_of_further; exact Hk | exact Hks].
Qed.

Lemma check_unique_empty entries :
  check_unique ∅ entries = None <-> ids_unique entries.
Proof.
  unfold ids_unique. rewrite check_unique_none. split; [intros [H _]; exact H|].
  intros H. split; [exact H|]. intros k _. apply not_elem_of_empty.
Qed.

Lemma check_runtime_none entries :
  check_runtime entries = None <-> runtimes_present entries.
Proof.
  unfold runtimes_present. induction entries as [|e rest IH]; cbn.
  - split; [constructor | reflexivity].
  - destruct (raw_runtime e) as [r|] eqn:Hr.
    + rewrite IH. split.
      * intros H. constructor; [rewrite Hr; eexists; reflexivity | exact H].
      * intros H. apply Forall_cons in H as [_ H]. exact H.
    + split; [discriminate|].
      intros H. apply Forall_cons in H as [[r Hr'] _]. congruence.
Qed.

Lemma check_types_none entries :
  check_types entries = None <-> types_recognized entries.
Proof.
  unfold types_recognized. induction entries as [|e rest IH]; cbn.
  - split; [constructor | reflexivity].
  - destruct (raw_runtime e) as [r|] eqn:Hr.
    + case_bool_decide as Hrec.
      * rewrite IH. split.
        -- intros H. constructor; [|exact H].
           intros r' Hr'. rewrite Hr in Hr'. injection Hr' as <-. exact Hrec.
        -- intros H. apply Forall_cons in H as [_ H]. exact H.
      * split; [discriminate|].
        intros H. apply Forall_cons in H as [H _]. exfalso. apply Hrec, H, Hr.
    + rewrite IH. split.
      * intros H. constructor; [|exact H]. intros r' Hr'. rewrite Hr in Hr'. discriminate.
      * intros H. apply Forall_cons in H as [_ H]. exact H.
Qed.

Lemma decode_recognized (r : RawRuntime) :
  type_tag r ∈ recognized_types -> is_Some (decode_runtime r).
Proof.
  unfold recognized_types, decode_runtime. intros H.
  repeat (apply elem_of_cons in H as [->|H]; [cbn; eexists; reflexivity|]).
  apply not_elem_of_nil in H. contradiction.
Qed.

(** Every entry of a catalog that passes the rules becomes a definition
    that carries the id of the entry. *)
Lemma definitions_of_valid entries :
  runtimes_present entries -> types_recognized entries ->
  catalog_ids (omap definition_of entries) = map entry_id entries.
Proof.
  unfold runtimes_present, types_recognized, catalog_ids.
  induction entries as [|e rest IH]; intros Hr Ht; [reflexivity|].
  apply Forall_cons in Hr as [[r Hr] Hrs]. apply Forall_cons in Ht as [Ht Hts].
  cbn. unfold definition_of at 1. rewrite Hr.
  destruct (decode_recognized r (Ht r Hr)) as [rt ->].
  cbn. rewrite (IH Hrs Hts). reflexivity.
Qed.

Lemma load_valid entries :
  ids_present entries -> ids_unique entries ->
  runtimes_present entries -> types_recognized entries ->
  load (Ok entries) = Ok (new (omap definition_of entries))
  /\ ids (new (omap definition_of entries)) = list_to_set (map entry_id entries)
  /\ length (all (new (omap definition_of entries))) = length entries.
Proof.
  intros Hb Hc Hd He.
  pose proof (definitions_of_valid entries Hd He) as Hids.
  assert (Hnd : NoDup (catalog_ids (omap definition_of entries))) by (rewrite Hids; exact Hc).
  split; [|split].
  - unfold load.
    rewrite (proj2 (check_ids_none entries 0) Hb).
    rewrite (proj2 (check_unique_empty entries) Hc).
    rewrite (proj2 (check_runtime_none entries) Hd).
    rewrite (proj2 (check_types_none entries) He). reflexivity.
  - rewrite (ids_new_unique _ Hnd), Hids. reflexivity.
  - rewrite (all_new _ Hnd).
    rewrite <- (length_map id), <- (length_map entry_id entries).
    fold (catalog_ids (omap definition_of entries)). rewrite Hids. reflexivity.
Qed.




(** A failed load leaves the watcher, and so its registry, as it was. *)
Lemma reload_failed (w : CatalogWatcher) source e :
  load source = Err e -> reload w source = (w, Err e).
Proof. intros H. unfold reload. rewrite H. reflexivity. Qed.

(** C2. For every catalog source and every watcher: if the source breaks
    a rule, [load] fails with an error of the first rule broken, in the
    order syntax, non-empty ids, unique ids, runtime blocks, runtime types,
    and [reload] returns that error and the watcher unchanged, with the
    registry it had; if no rule is broken, [load] returns a registry that
    holds every entry of the catalog. *)
Theorem C2_first_broken_rule_rejects_whole_catalog
    (w : CatalogWatcher) (source : Result (list RawEntry) string) :
  (forall rule, first_broken source rule ->
     exists e, load source = Err e /\ rule_of e = rule
               /\ reload w source = (w, Err e)
               /\ registry (fst (reload w source)) = registry w)
  /\ (forall entries, valid_source source entries ->
        exists r, load source = Ok r
                  /\ ids r = list_to_set (map entry_id entries)
                  /\ length (all r) = length entries
                  /\ registry (fst (reload w source)) = r).
Proof.
  assert (Hfail : forall e, load source = Err e ->
            reload w source = (w, Err e) /\ registry (fst (reload w source)) = registry w).
  { intros e He. rewrite (reload_failed w source e He). split; reflexivity. }
  split.
  - intros rule Hrule.
    assert (exists e, load source = Err e /\ rule_of e = rule) as (e & He & Hr).
    { destruct Hrule as [msg|entries Hb|entries Hb Hc|entries Hb Hc Hd|entries Hb Hc Hd He];
        unfold load.
      - eexists; split; reflexivity.
      - destruct (check_ids 0 entries) as [i|] eqn:Hi.
        + eexists; split; reflexivity.
        + exfalso. apply Hb, (check_ids_none entries 0), Hi.
      - rewrite (proj2 (check_ids_none entries 0) Hb).
        destruct (check_unique ∅ entries) as [k|] eqn:Hu.
        + eexists; split; reflexivity.
        + exfalso. apply Hc, check_unique_empty, Hu.
      - rewrite (proj2 (check_ids_none entries 0) Hb).
        rewrite (proj2 (check_unique_empty entries) Hc).
        destruct (check_runtime entries) as [k|] eqn:Hrt.
        + eexists; split; reflexivity.
        + exfalso. apply Hd, check_runtime_none, Hrt.
      - rewrite (proj2 (check_ids_none entries 0) Hb).
        rewrite (proj2 (check_unique_empty entries) Hc).
        rewrite (proj2 (check_runtime_none entries) Hd).
        destruct (check_types entries) as [[k t]|] eqn:Hty.
        + eexists; split; reflexivity.
        + exfalso. apply He, check_types_none, Hty. }
    exists e. destruct (Hfail e He) as [H1 H2]. repeat split; assumption.
  - intros entries Hvalid. destruct Hvalid as [entries Hb Hc Hd He].
    destruct (load_valid entries Hb Hc Hd He) as (Hl & Hi & Hn).
    eexists. split; [exact Hl|]. split; [exact Hi|]. split; [exact Hn|].
    unfold reload. rewrite Hl. reflexivity.
Qed.

(** The duplicate id [x] of the spec's scenario: rule (c) is the first one
    broken, and the watcher keeps its registry of [a] and [b]. The catalog
    of the single server [echo] breaks no rule and becomes the registry. *)
Lemma C2_witness_duplicate_id :
  (exists e, load duplicate_catalog = Err e /\ rule_of e = RuleUnique
             /\ reload sample_watcher duplicate_catalog = (sample_watcher, Err e)
             /\ registry (fst (reload sample_watcher duplicate_catalog))
                = registry sample_watcher)
  /\ (exists r, load echo_catalog = Ok r
                /\ ids r = list_to_set (map entry_id [raw (Some "echo") (Some "local-process")])
                /\ length (all r) = 1%nat
                /\ registry (fst (reload sample_watcher echo_catalog)) = r).
Proof.
  split.
  - apply (proj1 (C2_first_broken_rule_rejects_whole_catalog
                    sample_watcher duplicate_catalog)).
    apply broken_unique.
    + repeat constructor.
    + unfold ids_unique. cbn. intros H. apply NoDup_cons in H as [H _].
      apply H, list_elem_of_here.
  - apply (proj2 (C2_first_broken_rule_rejects_whole_catalog
                    sample_watcher echo_catalog)).
    apply valid_entries.
    + repeat constructor.
    + unfold ids_unique. cbn. apply NoDup_singleton.
    + repeat constructor. cbn. eexists. reflexivity.
    + constructor; [|constructor]. cbn. intros rt [= <-]. cbn.
      apply list_elem_of_here.
Defined.

End CatalogValidation.

(** ** Stopping servers: reload reconciliation and the idle sweep *)

Section StopProperties.
Import Runtime Pool Registry Manager.

Variable close_all : ConnectionPool -> Result unit GatewayError.

Lemma set_stopped_shutting_down s : set_stopped (set_shutting_down s) = set_stopped s.
Proof. reflexivity. Qed.

Lemma stop_server_registry m k : registry (fst (stop_server close_all m k)) = registry m.
Proof.
  unfold stop_server, stop_close_connections, stop_mark_shutting_down.
  cbn [connections with_states].
  destruct (connections m !! k) as [pool|]; [destruct (close_all pool)|]; reflexivity.
Qed.

Lemma stop_server_config m k : config (fst (stop_server close_all m k)) = config m.
Proof.
  unfold stop_server, stop_close_connections, stop_mark_shutting_down.
  cbn [connections with_states].
  destruct (connections m !! k) as [pool|]; [destruct (close_all pool)|]; reflexivity.
Qed.

(** [stop_server] removes the pool of the server, whatever closing it
    answers. *)
Lemma stop_server_connections m k k' :
  connections (fst (stop_server close_all m k)) !! k'
  = if decide (k = k') then None else connections m !! k'.
Proof.
  unfold stop_server, stop_close_connections, stop_mark_shutting_down.
  cbn [connections with_states].
  destruct (connections m !! k) as [pool|] eqn:Hp.
  - destruct (close_all pool); cbn; apply lookup_delete.
  - cbn. case_decide; [subst; exact Hp | reflexivity].
Qed.

Lemma stop_server_states m k k' :
  states (fst (stop_server close_all m k)) !! k'
  = if decide (k = k') then state_after_stop close_all (connections m !! k) <$> states m !! k
    else states m !! k'.
Proof.
  unfold stop_server, stop_close_connections, stop_mark_shutting_down, state_after_stop.
  cbn [connections with_states].
  destruct (connections m !! k) as [pool|] eqn:Hp.
  - destruct (close_all pool); cbn; rewrite !lookup_alter;
      repeat case_decide; subst; try congruence;
      destruct (states m !! k'); reflexivity.
  - cbn. rewrite !lookup_alter. repeat case_decide; subst; try congruence.
    destruct (states m !! k'); reflexivity.
Qed.

Lemma stop_each_registry ks : forall m,
  registry (fst (stop_each close_all m ks)) = registry m.
Proof.
  induction ks as [|k ks IH]; intros m; cbn; [reflexivity|].
  destruct (stop_server close_all m k) as [m1 r] eqn:Hs.
  specialize (IH m1). destruct (stop_each close_all m1 ks) as [m2 errors].
  pose proof (stop_server_registry m k) as Hr. rewrite Hs in Hr. cbn in Hr, IH.
  destruct r; cbn; congruence.
Qed.

Lemma stop_each_config ks : forall m,
  config (fst (stop_each close_all m ks)) = config m.
Proof.
  induction ks as [|k ks IH]; intros m; cbn; [reflexivity|].
  destruct (stop_server close_all m k) as [m1 r] eqn:Hs.
  specialize (IH m1). destruct (stop_each close_all m1 ks) as [m2 errors].
  pose proof (stop_server_config m k) as Hr. rewrite Hs in Hr. cbn in Hr, IH.
  destruct r; cbn; congruence.
Qed.

(** Unfolding one iteration of the loop. *)
Lemma stop_each_cons m k ks :
  fst (stop_each close_all m (k :: ks))
  = fst (stop_each close_all (fst (stop_server close_all m k)) ks).
Proof.
  cbn [stop_each]. destruct (stop_server close_all m k) as [m1 r]. cbn [fst].
  destruct (stop_each close_all m1 ks) as [m2 errors]. destruct r; reflexivity.
Qed.

(** A server that the loop does not name keeps its state and its pool. *)
Lemma stop_each_untouched ks : forall m k,
  k ∉ ks ->
  states (fst (stop_each close_all m ks)) !! k = states m !! k
  /\ connections (fst (stop_each close_all m ks)) !! k = connections m !! k.
Proof.
  induction ks as [|k0 ks IH]; intros m k Hnotin; [split; reflexivity|].
  apply not_elem_of_cons in Hnotin as [Hne Hnotin].
  rewrite stop_each_cons.
  destruct (IH (fst (stop_server close_all m k0)) k Hnotin) as [Hs Hc].
  rewrite Hs, Hc, stop_server_states, stop_server_connections.
  rewrite !decide_False by congruence. split; reflexivity.
Qed.

(** A server that the loop names once loses its pool and gets the state
    that [stop_server] leaves. *)
Lemma stop_each_stopped ks : forall m k,
  NoDup ks -> k ∈ ks ->
  states (fst (stop_each close_all m ks)) !! k
  = state_after_stop close_all (connections m !! k) <$> states m !! k
  /\ connections (fst (stop_each close_all m ks)) !! k = None.
Proof.
  induction ks as [|k0 ks IH]; intros m k Hnd Hin.
  - apply not_elem_of_nil in Hin. contradiction.
  - apply NoDup_cons in Hnd as [Hfresh Hnd]. rewrite stop_each_cons.
    destruct (decide (k0 = k)) as [->|Hne].
    + destruct (stop_each_untouched ks (fst (stop_server close_all m k)) k Hfresh)
        as [Hs Hc].
      rewrite Hs, Hc, stop_server_states, stop_server_connections.
      rewrite !decide_True by reflexivity. split; reflexivity.
    + apply elem_of_cons in Hin as [->|Hin]; [contradiction|].
      destruct (IH (fst (stop_server close_all m k0)) k Hnd Hin) as [Hs Hc].
      rewrite Hs, Hc, stop_server_states, stop_server_connections.
      rewrite !decide_False by congruence. split; reflexivity.
Qed.

Lemma update_registry_manager m new_registry :
  fst (update_registry close_all m new_registry)
  = fst (stop_each close_all (with_registry m new_registry)
           (elements (ids (registry m) ∖ ids new_registry))).
Proof.
  unfold update_registry.
  destruct (stop_each close_all _ _) as [m' errors]. reflexivity.
Qed.

End StopProperties.

Section Reconciliation.
Import Runtime Pool Registry Manager.

Variable close_all : ConnectionPool -> Result unit GatewayError.

Lemma update_registry_registry m r :
  registry (fst (update_registry close_all m r)) = r.
Proof. rewrite update_registry_manager, stop_each_registry. reflexivity. Qed.

Lemma update_registry_removed m r k :
  k ∈ ids (registry m) -> k ∉ ids r ->
  states (fst (update_registry close_all m r)) !! k
  = state_after_stop close_all (connections m !! k) <$> states m !! k
  /\ connections (fst (update_registry close_all m r)) !! k = None.
Proof.
  intros Hold Hnew. rewrite update_registry_manager.
  apply (stop_each_stopped close_all _ (with_registry m r) k).
  - apply NoDup_elements.
  - apply elem_of_elements, elem_of_difference. split; assumption.
Qed.

Lemma update_registry_kept m r k :
  k ∉ ids (registry m) \/ k ∈ ids r ->
  states (fst (update_registry close_all m r)) !! k = states m !! k
  /\ connections (fst (update_registry close_all m r)) !! k = connections m !! k.
Proof.
  intros Hk. rewrite update_registry_manager.
  apply (stop_each_untouched close_all _ (with_registry m r) k).
  rewrite elem_of_elements, elem_of_difference. intros [Hold Hnew].
  destruct Hk as [Hk|Hk]; contradiction.
Qed.

(** C3, as amended. For every reload of a manager from its registry to a
    new one, the registry becomes the new one, and for every id [k]:
    - if [k] is in the old registry only ([A]), it is gone from the
      registry and its pool is removed; its [ServerState], if it has one,
      is kept; when closing its pool succeeds (or it has no pool) that
      state is Stopped with [started_at] cleared;
    - if [k] is in the new registry only ([D]), it is listed and its state
      and pool are what they were: nothing is started;
    - if [k] is in both ([B], [C]), its state and its pool, with the
      runtime the pool was created from, are what they were, whether or not
      its definition changed. *)
Theorem C3_reload_reconciliation
    (m : ServerManager) (r : ServerRegistry) (k : string) :
  let m' := fst (update_registry close_all m r) in
  registry m' = r
  /\ (k ∈ ids (registry m) -> k ∉ ids r ->
      get (registry m') k = None
      /\ connections m' !! k = None
      /\ (is_Some (states m' !! k) <-> is_Some (states m !! k))
      /\ (closes_cleanly close_all m k ->
          states m' !! k = set_stopped <$> states m !! k))
  /\ (k ∉ ids (registry m) -> k ∈ ids r ->
      is_Some (get (registry m') k)
      /\ states m' !! k = states m !! k
      /\ connections m' !! k = connections m !! k)
  /\ (k ∈ ids (registry m) -> k ∈ ids r ->
      states m' !! k = states m !! k
      /\ connections m' !! k = connections m !! k).
Proof.
  intros m'. subst m'. split; [apply update_registry_registry|].
  split; [|split].
  - intros Hold Hnew. rewrite update_registry_registry.
    destruct (update_registry_removed m r k Hold Hnew) as [Hs Hc].
    split; [apply not_elem_of_dom, Hnew|]. split; [exact Hc|]. split.
    + rewrite Hs. apply fmap_is_Some.
    + intros Hclean. rewrite Hs. unfold state_after_stop.
      destruct (connections m !! k) as [pool|] eqn:Hp; [|reflexivity].
      destruct (Hclean pool Hp) as [u ->]. reflexivity.
  - intros Hold Hnew. rewrite update_registry_registry.
    split; [apply elem_of_dom, Hnew|].
    apply update_registry_kept. left. exact Hold.
  - intros Hold Hnew. apply update_registry_kept. right. exact Hnew.
Qed.

End Reconciliation.

Lemma in_old_registry k :
  k ∈ ["a"; "b"; "c"] -> k ∈ Registry.ids old_registry.
Proof.
  intros Hk. apply elem_of_dom.
  repeat (apply elem_of_cons in Hk as [->|Hk]; [vm_compute; eexists; reflexivity|]).
  apply not_elem_of_nil in Hk. contradiction.
Qed.

Lemma in_new_registry k :
  k ∈ ["b"; "c"; "d"] -> k ∈ Registry.ids new_registry.
Proof.
  intros Hk. apply elem_of_dom.
  repeat (apply elem_of_cons in Hk as [->|Hk]; [vm_compute; eexists; reflexivity|]).
  apply not_elem_of_nil in Hk. contradiction.
Qed.

Lemma a_not_in_new_registry : "a" ∉ Registry.ids new_registry.
Proof. apply not_elem_of_dom. vm_compute. reflexivity. Qed.

Lemma d_not_in_old_registry : "d" ∉ Registry.ids old_registry.
Proof. apply not_elem_of_dom. vm_compute. reflexivity. Qed.

(** The reload from [{a, b, c}] to [{b, c, d}]: [a] is stopped and keeps
    its state, [d] is listed and has no state, [b] keeps running on the
    pool of its old definition. *)
Lemma C3_witness_abc_to_bcd :
  let m' := fst (Manager.update_registry Manager.close_ok serving_manager new_registry) in
  (Registry.get (Manager.registry m') "a" = None
   /\ Manager.connections m' !! "a" = None
   /\ Manager.states m' !! "a" = Some (Manager.set_stopped (Manager.running_since 0)))
  /\ (is_Some (Registry.get (Manager.registry m') "d")
      /\ Manager.states m' !! "d" = None
      /\ Manager.connections m' !! "d" = None)
  /\ (Manager.states m' !! "b" = Some (Manager.running_since 0)
      /\ Manager.connections m' !! "b"
         = Some (Manager.one_connection (Registry.runtime Registry.server_b))).
Proof.
  intros m'. subst m'.
  split; [|split].
  - destruct (C3_reload_reconciliation Manager.close_ok serving_manager new_registry "a")
      as (_ & Ha & _ & _).
    destruct Ha as (Hg & Hc & _ & Hs).
    + apply in_old_registry, list_elem_of_here.
    + apply a_not_in_new_registry.
    + split; [exact Hg|]. split; [exact Hc|].
      rewrite Hs; [reflexivity|]. intros pool _. exists tt. reflexivity.
  - destruct (C3_reload_reconciliation Manager.close_ok serving_manager new_registry "d")
      as (_ & _ & Hd & _).
    destruct Hd as (Hg & Hs & Hc).
    + apply d_not_in_old_registry.
    + apply in_new_registry. do 2 apply list_elem_of_further. apply list_elem_of_here.
    + split; [exact Hg|]. split; [rewrite Hs | rewrite Hc]; reflexivity.
  - destruct (C3_reload_reconciliation Manager.close_ok serving_manager new_registry "b")
      as (_ & _ & _ & Hb).
    destruct Hb as (Hs & Hc).
    + apply in_old_registry, list_elem_of_further, list_elem_of_here.
    + apply in_new_registry, list_elem_of_here.
    + split; [rewrite Hs | rewrite Hc]; reflexivity.
Defined.

(** C3, refuted as stated. After the reload from [{a, b, c}] to
    [{b, c, d}] the [ServerState] of [a] is still in the manager, stopped:
    it is not removed. *)
Lemma C3_counterexample_state_not_removed :
  Manager.states
    (fst (Manager.update_registry Manager.close_ok serving_manager new_registry)) !! "a"
  = Some (Manager.set_stopped (Manager.running_since 0))
  /\ Manager.states
       (fst (Manager.update_registry Manager.close_ok serving_manager new_registry)) !! "a"
     <> None.
Proof. split; [vm_compute; reflexivity | vm_compute; discriminate]. Qed.

(** ** The idle sweep *)

Section IdleSweep.
Import Runtime Pool Registry Manager.

Variable close_all : ConnectionPool -> Result unit GatewayError.

Lemma is_idle_spec cfg now s :
  is_idle cfg now s = true
  <-> status s = Running /\ (idle_timeout cfg < now - last_activity s)%N.
Proof.
  unfold is_idle. rewrite andb_true_iff, bool_decide_eq_true, N.ltb_lt. reflexivity.
Qed.

(** The sweep spawns a stop for exactly the running servers that have
    been idle for longer than the timeout. *)
Lemma check_idle_servers_spec m now k :
  k ∈ check_idle_servers m now
  <-> exists s, states m !! k = Some s /\ is_idle (config m) now s = true.
Proof.
  unfold check_idle_servers. rewrite list_elem_of_fmap. split.
  - intros [[k' s] [-> Hin]]. apply list_elem_of_In, filter_In in Hin as [Hin Hidle].
    apply list_elem_of_In, elem_of_map_to_list in Hin. exists s. split; assumption.
  - intros [s [Hs Hidle]]. exists (k, s). split; [reflexivity|].
    apply list_elem_of_In, filter_In. split; [|exact Hidle].
    apply list_elem_of_In, elem_of_map_to_list. exact Hs.
Qed.

Lemma filter_keys_NoDup {A : Type} (f : string * A -> bool) (l : list (string * A)) :
  NoDup l.*1 -> NoDup (List.filter f l).*1.
Proof.
  induction l as [|x l IH]; cbn; intros Hnd; [constructor|].
  apply NoDup_cons in Hnd as [Hfresh Hnd]. destruct (f x); cbn; [|apply IH, Hnd].
  apply NoDup_cons. split; [|apply IH, Hnd].
  intros Hin. apply Hfresh.
  apply list_elem_of_fmap in Hin as [y [Hy Hin]]. apply list_elem_of_fmap. exists y.
  split; [exact Hy|]. apply list_elem_of_In. apply list_elem_of_In in Hin.
  apply filter_In in Hin as [Hin _]. exact Hin.
Qed.

Lemma check_idle_servers_NoDup m now : NoDup (check_idle_servers m now).
Proof. apply filter_keys_NoDup, NoDup_fst_map_to_list. Qed.

(** In the states that [stop_server] goes through for a running server,
    the status is Stopped only once the pool is gone. *)
Lemma stop_server_trace_order m k s mi :
  states m !! k = Some s -> status s = Running ->
  mi ∈ stop_server_trace close_all m k ->
  status_of mi k = Some Stopped -> connections mi !! k = None.
Proof.
  intros Hs Hrun Hin Hstopped.
  assert (H1 : status_of (stop_mark_shutting_down m k) k = Some ShuttingDown).
  { unfold status_of, stop_mark_shutting_down. cbn. rewrite lookup_alter_eq, Hs. reflexivity. }
  assert (H0 : status_of m k = Some Running).
  { unfold status_of. rewrite Hs. cbn. congruence. }
  unfold stop_server_trace, stop_close_connections in Hin.
  cbn [connections with_states stop_mark_shutting_down] in Hin.
  fold (stop_mark_shutting_down m k) in Hin.
  destruct (connections m !! k) as [pool|] eqn:Hp.
  - assert (H2 : status_of (with_connections (stop_mark_shutting_down m k)
                              (delete k (connections m))) k = Some ShuttingDown)
      by exact H1.
    destruct (close_all pool);
      repeat (apply elem_of_cons in Hin as [->|Hin]; [try congruence|]);
      try (apply not_elem_of_nil in Hin; contradiction);
      cbn; apply lookup_delete_eq.
  - repeat (apply elem_of_cons in Hin as [->|Hin]; [exact Hp|]).
    apply not_elem_of_nil in Hin. contradiction.
Qed.

(** C5, on the code. For every running server whose idle time exceeds the
    timeout: the sweep spawns its stop; after the sweep the manager holds
    no pool for it; inside [stop_server] the status is Stopped only after
    the pool is removed; the status ends as Stopped when closing the pool
    succeeds (or there is no pool), but when closing the pool fails the
    server is left in ShuttingDown. *)
Theorem C5_idle_server_stopped_unless_close_fails
    (m : ServerManager) (now : N) (k : string) (s : ServerState) :
  states m !! k = Some s ->
  status s = Running ->
  (idle_timeout (config m) < now - last_activity s)%N ->
  let m' := fst (idle_sweep close_all m now) in
  k ∈ check_idle_servers m now
  /\ pool_size m' k = 0%nat
  /\ (forall mi, mi ∈ stop_server_trace close_all m k ->
        status_of mi k = Some Stopped -> pool_size mi k = 0%nat)
  /\ (closes_cleanly close_all m k -> status_of m' k = Some Stopped)
  /\ (forall pool e, connections m !! k = Some pool -> close_all pool = Err e ->
        status_of m' k = Some ShuttingDown).
Proof.
  intros Hs Hrun Hidle m'.
  assert (Hin : k ∈ check_idle_servers m now).
  { apply check_idle_servers_spec. exists s. split; [exact Hs|].
    apply is_idle_spec. split; assumption. }
  destruct (stop_each_stopped close_all _ m k (check_idle_servers_NoDup m now) Hin)
    as [Hst Hc].
  fold (idle_sweep close_all m now) in Hst, Hc. fold m' in Hst, Hc.
  split; [exact Hin|]. split; [|split; [|split]].
  - unfold pool_size. rewrite Hc. reflexivity.
  - intros mi Hmi Hstopped. unfold pool_size.
    rewrite (stop_server_trace_order m k s mi Hs Hrun Hmi Hstopped). reflexivity.
  - intros Hclean. unfold status_of. rewrite Hst, Hs. unfold state_after_stop.
    destruct (connections m !! k) as [pool|] eqn:Hp; [|reflexivity].
    destruct (Hclean pool Hp) as [u ->]. reflexivity.
  - intros pool e Hp Hclose. unfold status_of. rewrite Hst, Hs. unfold state_after_stop.
    rewrite Hp, Hclose. reflexivity.
Qed.

End IdleSweep.

Example sweep_stops_idle_servers :
  Manager.status_of (fst (Manager.idle_sweep Manager.close_ok serving_manager 1000)) "a"
  = Some Manager.Stopped
  /\ Manager.pool_size (fst (Manager.idle_sweep Manager.close_ok serving_manager 1000)) "a"
     = 0%nat.
Proof. vm_compute. split; reflexivity. Qed.

Example sweep_spares_active_servers :
  Manager.check_idle_servers serving_manager 200 = [].
Proof. vm_compute. reflexivity. Qed.

(** The server [a], idle since tick 0, swept at tick 1000 with a timeout of
    300 ticks while the kill of its process fails: the sweep stops it, its
    pool is removed, and its status stays ShuttingDown. *)
Lemma C5_witness_close_fails :
  "a" ∈ Manager.check_idle_servers serving_manager 1000
  /\ Manager.pool_size (fst (Manager.idle_sweep Manager.close_fails serving_manager 1000)) "a"
     = 0%nat
  /\ Manager.status_of (fst (Manager.idle_sweep Manager.close_fails serving_manager 1000)) "a"
     = Some Manager.ShuttingDown.
Proof.
  destruct (C5_idle_server_stopped_unless_close_fails Manager.close_fails
              serving_manager 1000 "a" (Manager.running_since 0))
    as (Hin & Hpool & _ & _ & Hfail).
  - reflexivity.
  - reflexivity.
  - vm_compute. reflexivity.
  - split; [exact Hin|]. split; [exact Hpool|].
    apply (Hfail (Manager.one_connection (Registry.runtime Registry.server_a))
                 (RuntimeError "kill failed")); reflexivity.
Defined.

(** * Further properties of the code *)

(** ** Connection pool: handles, growth and the idle queue *)

Section PoolHandles.
Import Runtime Pool.

Lemma get_returns_slot
    (connect : Result BackendConnection GatewayError) (p p' : ConnectionPool)
    (c : PooledConnection) :
  get connect p = (p', Return (Ok c)) -> (idx c < live p')%nat.
Proof.
  unfold get, live. destruct (available p) as [|i rest].
  - destruct (length (connections p) <? max_size p)%nat; [|discriminate].
    destruct connect as [conn|e]; [|discriminate].
    intros [= <- <-]. cbn. rewrite length_app. cbn. lia.
  - cbn [connections with_available].
    destruct (Nat.ltb_spec i (length (connections p))); [|discriminate].
    intros [= <- <-]. cbn. exact H.
Qed.

(** X1. Every handle that [get] returns names an existing slot of the
    pool it returns, and a [get] never changes the bound of the pool nor
    the runtime it connects with. *)
Theorem get_handle_in_bounds
    (connect : Result BackendConnection GatewayError) (p p' : ConnectionPool)
    (c : PooledConnection) :
  get connect p = (p', Return (Ok c)) ->
  (idx c < live p')%nat /\ max_size p' = max_size p /\ runtime p' = runtime p.
Proof.
  intros H. split; [exact (get_returns_slot connect p p' c H)|].
  revert H. unfold get. destruct (available p) as [|i rest].
  - destruct (length (connections p) <? max_size p)%nat; [|discriminate].
    destruct connect as [conn|e]; [|discriminate].
    intros [= <- <-]. split; reflexivity.
  - destruct (i <? _)%nat; [|discriminate]. intros [= <- <-]. split; reflexivity.
Qed.

Lemma get_handle_in_bounds_witness :
  (idx {| idx := 0 |} < live busy_pool)%nat
  /\ max_size busy_pool = max_size (empty_pool 1 echo_runtime)
  /\ runtime busy_pool = runtime (empty_pool 1 echo_runtime).
Proof.
  apply (get_handle_in_bounds fresh_connection (empty_pool 1 echo_runtime)).
  reflexivity.
Defined.

Lemma step_keeps_connections p op : connections p `prefix_of` connections (step p op).
Proof.
  destruct op as [connect|i]; cbn; [|reflexivity].
  unfold get. destruct (available p) as [|j rest].
  - destruct (length (connections p) <? max_size p)%nat; [|reflexivity].
    destruct connect as [conn|e]; [|reflexivity].
    cbn. apply prefix_app_r. reflexivity.
  - destruct (j <? _)%nat; reflexivity.
Qed.

(** X2. Along every sequence of [get] and [release] the pool only appends
    connections: the connections it had stay, in the same slots. *)
Theorem run_keeps_connections (ops : list PoolOp) (p : ConnectionPool) :
  connections p `prefix_of` connections (run ops p)
  /\ forall i conn, connections p !! i = Some conn -> connections (run ops p) !! i = Some conn.
Proof.
  assert (H : connections p `prefix_of` connections (run ops p)).
  { unfold run. revert p. induction ops as [|op ops IH]; intros p; cbn; [reflexivity|].
    etransitivity; [apply step_keeps_connections | apply IH]. }
  split; [exact H|]. intros i conn Hi. eapply prefix_lookup_Some; eassumption.
Qed.

(** X3. A [get] opens a connection exactly when the pool has no idle
    connection, is below its bound and the runtime connects; in every other
    case the number of connections is unchanged. *)
Theorem get_opens_connection_iff
    (connect : Result BackendConnection GatewayError) (p : ConnectionPool) :
  (live (fst (get connect p)) = S (live p)
   <-> available p = [] /\ (live p < max_size p)%nat /\ exists conn, connect = Ok conn)
  /\ (live (fst (get connect p)) = live p \/ live (fst (get connect p)) = S (live p)).
Proof.
  unfold get, live. destruct (available p) as [|i rest].
  - destruct (Nat.ltb_spec (length (connections p)) (max_size p)) as [Hlt|Hge].
    + destruct connect as [conn|e]; cbn.
      * rewrite length_app. cbn. split; [|right; lia].
        split; [intros _; repeat split; [exact Hlt | eexists; reflexivity] | lia].
      * split; [|left; reflexivity].
        split; [lia | intros (_ & _ & conn & Hc); discriminate Hc].
    + cbn. split; [|left; reflexivity]. split; [lia | intros (_ & Hlt & _); lia].
  - cbn [connections with_available]. destruct (i <? _)%nat; cbn;
      (split; [|left; reflexivity]); (split; [lia | intros (Hnil & _); discriminate Hnil]).
Qed.

Lemma get_after_release
    (connect : Result BackendConnection GatewayError) (p : ConnectionPool) (i : nat) :
  available p = [] ->
  get connect (release p i)
  = (p, if (i <? live p)%nat then Return (Ok {| idx := i |})
        else Panic "index out of bounds").
Proof.
  intros Ha. destruct p as [conns avail max rt]. cbn in Ha. subst avail.
  unfold get, release, live, with_available. cbn [connections available max_size runtime app].
  destruct (i <? length conns)%nat; reflexivity.
Qed.

(** X4. Releasing a slot into a pool with no idle connection and getting
    again hands back that slot and the pool as it was, whatever the runtime
    would answer; if the released index is not a slot of the pool, the
    next [get] panics on the index. *)
Theorem release_then_get
    (connect : Result BackendConnection GatewayError) (p : ConnectionPool) (i : nat) :
  available p = [] ->
  ((i < live p)%nat -> get connect (release p i) = (p, Return (Ok {| idx := i |})))
  /\ ((live p <= i)%nat -> get connect (release p i) = (p, Panic "index out of bounds")).
Proof.
  intros Ha. rewrite (get_after_release connect p i Ha).
  split; intros Hi.
  - destruct (Nat.ltb_spec i (live p)); [reflexivity | lia].
  - destruct (Nat.ltb_spec i (live p)); [lia | reflexivity].
Qed.

Lemma release_then_get_witness :
  get fresh_connection (release busy_pool 0) = (busy_pool, Return (Ok {| idx := 0 |}))
  /\ get fresh_connection (release busy_pool 7) = (busy_pool, Panic "index out of bounds").
Proof.
  destruct (release_then_get fresh_connection busy_pool 0 eq_refl) as [H0 _].
  destruct (release_then_get fresh_connection busy_pool 7 eq_refl) as [_ H7].
  split; [apply H0 | apply H7]; unfold live; cbn; lia.
Defined.

(** X5. The idle queue is first in, first out and [release] does not check
    what it is given: after two releases the next two [get]s return the two
    indices in order, also when they are the same index, so that one
    connection is then handed to two callers. *)
Theorem released_slots_first_in_first_out
    (c1 c2 : Result BackendConnection GatewayError) (p : ConnectionPool) (i j : nat) :
  available p = [] -> (i < live p)%nat -> (j < live p)%nat ->
  get c1 (release (release p i) j) = (release p j, Return (Ok {| idx := i |}))
  /\ get c2 (release p j) = (p, Return (Ok {| idx := j |})).
Proof.
  intros Ha Hi Hj. split.
  2:{ rewrite (get_after_release c2 p j Ha).
      destruct (Nat.ltb_spec j (live p)); [reflexivity | lia]. }
  destruct p as [conns avail max rt]. cbn in Ha. subst avail.
  unfold get, release, live, with_available in *.
  cbn [connections available max_size runtime app] in *.
  destruct (Nat.ltb_spec i (length conns)); [reflexivity | lia].
Qed.

Lemma released_slots_witness_double_release :
  get fresh_connection (release (release busy_pool 0) 0)
  = (release busy_pool 0, Return (Ok {| idx := 0 |}))
  /\ get fresh_connection (release busy_pool 0) = (busy_pool, Return (Ok {| idx := 0 |})).
Proof.
  apply (released_slots_first_in_first_out fresh_connection fresh_connection busy_pool 0 0);
    [reflexivity | unfold live; cbn; lia | unfold live; cbn; lia].
Defined.

End PoolHandles.

(** ** Stopping servers: retries, other servers, shutdown *)

Section StopFurther.
Import Runtime Pool Registry Manager.

Variable close_all : ConnectionPool -> Result unit GatewayError.

(** The result of [stop_server] is that of closing the pool, if any. *)
Lemma stop_server_result m k :
  snd (stop_server close_all m k)
  = match connections m !! k with
    | Some pool => match close_all pool with Ok _ => Ok tt | Err e => Err e end
    | None => Ok tt
    end.
Proof.
  unfold stop_server, stop_close_connections, stop_mark_shutting_down.
  cbn [connections with_states].
  destruct (connections m !! k) as [pool|]; [destruct (close_all pool)|]; reflexivity.
Qed.

Lemma set_stopped_after_stop pool s :
  set_stopped (state_after_stop close_all pool s) = set_stopped s.
Proof.
  unfold state_after_stop. destruct pool as [p|]; [destruct (close_all p)|]; reflexivity.
Qed.

(** X6. Stopping a server a second time always succeeds and ends in
    Stopped: whatever the first [stop_server] answered, the second one
    returns [Ok], finds no pool to close and leaves the state of the server
    Stopped with [started_at] cleared and no pool. *)
Theorem stop_server_retry_succeeds (m : ServerManager) (k : string) :
  let m1 := fst (stop_server close_all m k) in
  snd (stop_server close_all m1 k) = Ok tt
  /\ states (fst (stop_server close_all m1 k)) !! k = set_stopped <$> states m !! k
  /\ connections (fst (stop_server close_all m1 k)) !! k = None.
Proof.
  intros m1. subst m1. split; [|split].
  - rewrite stop_server_result, stop_server_connections, decide_True by reflexivity.
    reflexivity.
  - rewrite !stop_server_states, !decide_True by reflexivity.
    rewrite stop_server_connections, decide_True by reflexivity.
    destruct (states m !! k) as [s|]; [|reflexivity]. cbn.
    f_equal. apply set_stopped_after_stop.
  - rewrite stop_server_connections, decide_True by reflexivity. reflexivity.
Qed.

Lemma alter_missing {A : Type} (f : A -> A) (k : string) (x : gmap string A) :
  x !! k = None -> alter f k x = x.
Proof.
  intros H. apply map_eq. intros k'. rewrite lookup_alter.
  case_decide; [subst; rewrite H|]; reflexivity.
Qed.

Lemma stop_server_states_dom m k :
  dom (states (fst (stop_server close_all m k))) = dom (states m).
Proof.
  apply set_eq. intros k'. rewrite !elem_of_dom, stop_server_states.
  case_decide; [subst; rewrite fmap_is_Some|]; reflexivity.
Qed.

(** X7. [stop_server] touches one server only: the state and the pool of
    every other server, the registry and the configuration are unchanged,
    no [ServerState] is created or removed, and for an id that has neither
    a state nor a pool the call succeeds and changes nothing at all. *)
Theorem stop_server_touches_one_server (m : ServerManager) (k : string) :
  (forall k', k' <> k ->
     states (fst (stop_server close_all m k)) !! k' = states m !! k'
     /\ connections (fst (stop_server close_all m k)) !! k' = connections m !! k')
  /\ registry (fst (stop_server close_all m k)) = registry m
  /\ config (fst (stop_server close_all m k)) = config m
  /\ dom (states (fst (stop_server close_all m k))) = dom (states m)
  /\ (states m !! k = None -> connections m !! k = None ->
      stop_server close_all m k = (m, Ok tt)).
Proof.
  split; [|split; [|split; [|split]]].
  - intros k' Hne.
    rewrite stop_server_states, stop_server_connections, !decide_False by congruence.
    split; reflexivity.
  - apply stop_server_registry.
  - apply stop_server_config.
  - apply stop_server_states_dom.
  - intros Hs Hc.
    unfold stop_server, stop_close_connections, stop_mark_shutting_down, stop_mark_stopped.
    cbn [connections with_states states]. rewrite Hc.
    rewrite !alter_missing by (try rewrite alter_missing by exact Hs; exact Hs).
    destruct m. reflexivity.
Qed.

Lemma stop_all_cons m k ks :
  stop_all close_all m (k :: ks)
  = match snd (stop_server close_all m k) with
    | Err e => (fst (stop_server close_all m k), Err e)
    | Ok _ => stop_all close_all (fst (stop_server close_all m k)) ks
    end.
Proof.
  cbn [stop_all]. destruct (stop_server close_all m k) as [m1 r]. destruct r; reflexivity.
Qed.

(** What the loop of [shutdown_all] does over ids that occur once. *)
Lemma stop_all_spec ks : forall m,
  NoDup ks ->
  match snd (stop_all close_all m ks) with
  | Ok _ =>
      forall k,
        (k ∈ ks ->
         states (fst (stop_all close_all m ks)) !! k = set_stopped <$> states m !! k
         /\ connections (fst (stop_all close_all m ks)) !! k = None)
        /\ (k ∉ ks ->
            states (fst (stop_all close_all m ks)) !! k = states m !! k
            /\ connections (fst (stop_all close_all m ks)) !! k = connections m !! k)
  | Err e =>
      exists k pool,
        k ∈ ks /\ connections m !! k = Some pool /\ close_all pool = Err e
        /\ states (fst (stop_all close_all m ks)) !! k = set_shutting_down <$> states m !! k
        /\ connections (fst (stop_all close_all m ks)) !! k = None
  end.
Proof.
  induction ks as [|k0 ks IH]; intros m Hnd.
  - cbn. intros k. split; [intros H; apply not_elem_of_nil in H; contradiction|].
    intros _. split; reflexivity.
  - apply NoDup_cons in Hnd as [Hfresh Hnd]. rewrite stop_all_cons.
    pose proof (stop_server_result m k0) as Hres.
    pose proof (stop_server_states close_all m k0) as Hst.
    pose proof (stop_server_connections close_all m k0) as Hco.
    destruct (snd (stop_server close_all m k0)) as [u|e] eqn:Hr.
    + specialize (IH (fst (stop_server close_all m k0)) Hnd).
      destruct (snd (stop_all close_all (fst (stop_server close_all m k0)) ks)) as [u'|e'].
      * intros k. destruct (IH k) as [Hin Hout]. split.
        -- intros Hk. apply elem_of_cons in Hk as [->|Hk].
           ++ destruct (Hout Hfresh) as [-> ->].
              rewrite Hst, Hco, !decide_True by reflexivity. split; [|reflexivity].
              unfold state_after_stop.
              destruct (connections m !! k0) as [pool|]; [|reflexivity].
              destruct (close_all pool); [reflexivity | discriminate Hres].
           ++ destruct (Hin Hk) as [-> ->].
              rewrite Hst, decide_False by (intros ->; contradiction).
              split; reflexivity.
        -- intros Hk. apply not_elem_of_cons in Hk as [Hne Hk].
           destruct (Hout Hk) as [-> ->].
           rewrite Hst, Hco, !decide_False by congruence. split; reflexivity.
      * destruct IH as (k & pool & Hk & Hp & Hc & Hs & Hn).
        assert (Hne : k0 <> k) by (intros ->; contradiction).
        exists k, pool. rewrite Hco, decide_False in Hp by exact Hne.
        rewrite Hst, decide_False in Hs by exact Hne.
        repeat split; [apply list_elem_of_further, Hk | exact Hp | exact Hc | exact Hs | exact Hn].
    + destruct (connections m !! k0) as [pool|] eqn:Hp; [|discriminate Hres].
      destruct (close_all pool) as [u|e0] eqn:Hc; [discriminate Hres|].
      injection Hres as <-. exists k0, pool. cbn [fst].
      rewrite Hst, Hco, !decide_True by reflexivity.
      split; [apply list_elem_of_here|]. split; [first [exact Hp | reflexivity]|].
      split; [exact Hc|]. split; [|reflexivity].
      unfold state_after_stop. rewrite Hc. reflexivity.
Qed.

Lemma state_keys m k : k ∈ (map_to_list (states m)).*1 <-> is_Some (states m !! k).
Proof.
  rewrite list_elem_of_fmap. split.
  - intros [[k' s] [-> Hin]]. apply elem_of_map_to_list in Hin. eexists. exact Hin.
  - intros [s Hs]. exists (k, s). split; [reflexivity|]. apply elem_of_map_to_list, Hs.
Qed.

(** X8. [shutdown_all] either stops every server that has a state, or
    stops at the first pool that fails to close. When it returns [Ok],
    every server with a state is Stopped with [started_at] cleared and has
    no pool. When it returns [Err e], [e] is the error of closing the pool
    of a server that is left in ShuttingDown without its pool. *)
Theorem shutdown_all_outcome (m : ServerManager) :
  match snd (shutdown_all close_all m) with
  | Ok _ =>
      forall k s, states m !! k = Some s ->
        states (fst (shutdown_all close_all m)) !! k = Some (set_stopped s)
        /\ connections (fst (shutdown_all close_all m)) !! k = None
  | Err e =>
      exists k s pool,
        states m !! k = Some s /\ connections m !! k = Some pool
        /\ close_all pool = Err e
        /\ states (fst (shutdown_all close_all m)) !! k = Some (set_shutting_down s)
        /\ connections (fst (shutdown_all close_all m)) !! k = None
  end.
Proof.
  unfold shutdown_all.
  pose proof (stop_all_spec (map_to_list (states m)).*1 m (NoDup_fst_map_to_list _)) as H.
  destruct (snd (stop_all close_all m (map_to_list (states m)).*1)) as [u|e].
  - intros k s Hs. destruct (H k) as [Hin _].
    destruct Hin as [Hst Hco]; [apply state_keys; eexists; exact Hs|].
    rewrite Hst, Hs. split; [reflexivity | exact Hco].
  - destruct H as (k & pool & Hk & Hp & Hc & Hs & Hn).
    apply state_keys in Hk as [s Hks]. exists k, s, pool.
    rewrite Hs, Hks. repeat split; assumption.
Qed.

End StopFurther.

Lemma stop_server_touches_one_server_witness :
  Manager.stop_server Manager.close_fails fresh_manager "ghost" = (fresh_manager, Ok tt).
Proof.
  apply (stop_server_touches_one_server Manager.close_fails fresh_manager "ghost");
    apply lookup_empty.
Defined.

Example shutdown_all_stops_serving_manager :
  snd (Manager.shutdown_all Manager.close_ok serving_manager) = Ok tt
  /\ Manager.status_of (fst (Manager.shutdown_all Manager.close_ok serving_manager)) "b"
     = Some Manager.Stopped.
Proof. vm_compute. split; reflexivity. Qed.

(** ** Activity, the idle sweep and reloads *)

Section SweepFurther.
Import Runtime Pool Registry Manager.

Variable close_all : ConnectionPool -> Result unit GatewayError.

Lemma touch_states m k now k' :
  states (touch m k now) !! k'
  = if decide (k = k') then touched now <$> states m !! k else states m !! k'.
Proof.
  unfold touch. cbn. rewrite lookup_alter. case_decide; [subst|]; reflexivity.
Qed.

Lemma not_idle_not_swept m now k :
  (forall s, states m !! k = Some s ->
     status s <> Running \/ (now - last_activity s <= idle_timeout (config m))%N) ->
  k ∉ check_idle_servers m now.
Proof.
  intros H Hin. apply check_idle_servers_spec in Hin as [s [Hs Hidle]].
  apply is_idle_spec in Hidle as [Hrun Hlt].
  destruct (H s Hs) as [Hne|Hle]; [contradiction | lia].
Qed.

(** X9. [touch] records one request on the server it names and on no
    other: while the request count is below [u64::MAX], so that adding one
    does not overflow, the count grows by one and the last activity becomes
    [now], the rest of the state being kept; for an id without a state it
    creates none. A server touched at [now] is not picked by an idle sweep
    that runs within the idle timeout after [now]. *)
Theorem touch_postpones_idle_stop (m : ServerManager) (k : string) (now : N) :
  (forall s, states m !! k = Some s ->
     (request_count s < u64_max)%N ->
     exists s', states (touch m k now) !! k = Some s'
       /\ request_count s' = (request_count s + 1)%N /\ last_activity s' = now
       /\ status s' = status s /\ started_at s' = started_at s
       /\ error_count s' = error_count s)
  /\ (states m !! k = None -> touch m k now = m)
  /\ (forall k', k' <> k -> states (touch m k now) !! k' = states m !! k')
  /\ (forall sweep, (sweep - now <= idle_timeout (config m))%N ->
        k ∉ check_idle_servers (touch m k now) sweep).
Proof.
  split; [|split; [|split]].
  - intros s Hs Hlt. exists (touched now s).
    rewrite touch_states, decide_True, Hs by reflexivity.
    split; [reflexivity|]. split; [|repeat split].
    cbn [touched request_count]. unfold u64_increment.
    apply N.mod_small. lia.
  - intros Hs. unfold touch. rewrite alter_missing by exact Hs. destruct m. reflexivity.
  - intros k' Hne. rewrite touch_states, decide_False by congruence. reflexivity.
  - intros sweep Hle. apply not_idle_not_swept. intros s'.
    rewrite touch_states, decide_True by reflexivity.
    destruct (states m !! k) as [s|]; [|discriminate].
    intros [= <-]. right. exact Hle.
Qed.

(** X10. The idle sweep leaves alone every server that is not Running
    (Stopped, Starting, Unhealthy, ShuttingDown) or whose idle time is at
    most the timeout, the bound included; a last activity later than the
    sweep's clock counts as no idle time. Such a server is not picked and
    keeps its state and its pool through the sweep. *)
Theorem idle_sweep_spares (m : ServerManager) (now : N) (k : string) :
  (forall s, states m !! k = Some s ->
     status s <> Running \/ (now - last_activity s <= idle_timeout (config m))%N) ->
  (k ∉ check_idle_servers m now)
  /\ states (fst (idle_sweep close_all m now)) !! k = states m !! k
  /\ connections (fst (idle_sweep close_all m now)) !! k = connections m !! k.
Proof.
  intros H. pose proof (not_idle_not_swept m now k H) as Hnot.
  split; [exact Hnot|]. apply stop_each_untouched, Hnot.
Qed.

(** X11. A reload that keeps the set of ids stops nothing: whatever the
    definitions became, the manager only takes the new registry, its
    states and pools are unchanged, and the summary counts no server added
    or removed and no failed stop. *)
Theorem update_registry_same_ids (m : ServerManager) (r : ServerRegistry) :
  ids r = ids (registry m) ->
  update_registry close_all m r
  = (with_registry m r,
     {| added := 0; removed := 0; total := size (ids r); failed_stops := [] |}).
Proof.
  intros Hids. unfold update_registry. rewrite Hids.
  rewrite difference_diag_L, elements_empty. cbn. rewrite size_empty. reflexivity.
Qed.

(** The errors that the loop logs are those of the pools that fail to
    close. *)
Lemma stop_each_errors ks : forall m k e,
  NoDup ks ->
  ((k, e) ∈ snd (stop_each close_all m ks)
   <-> k ∈ ks /\ exists pool, connections m !! k = Some pool /\ close_all pool = Err e).
Proof.
  induction ks as [|k0 ks IH]; intros m k e Hnd.
  - cbn. split; [intros H; apply not_elem_of_nil in H; contradiction|].
    intros [H _]. apply not_elem_of_nil in H. contradiction.
  - apply NoDup_cons in Hnd as [Hfresh Hnd].
    pose proof (stop_server_result close_all m k0) as Hres.
    pose proof (stop_server_connections close_all m k0) as Hco.
    cbn [stop_each]. destruct (stop_server close_all m k0) as [m1 r]. cbn [fst snd] in *.
    specialize (IH m1 k e Hnd).
    destruct (stop_each close_all m1 ks) as [m2 errors]. cbn [snd] in IH.
    assert (Hrest : (k, e) ∈ errors
                    <-> k ∈ ks /\ exists pool, connections m !! k = Some pool
                                               /\ close_all pool = Err e).
    { rewrite IH. split; intros [Hk (pool & Hp & Hc)]; (split; [exact Hk|]);
        exists pool; (split; [|exact Hc]);
        rewrite Hco, decide_False in * by (intros ->; contradiction); exact Hp. }
    destruct r as [u|e0]; cbn [snd].
    + rewrite Hrest, elem_of_cons. split.
      * intros [Hk H]. split; [right; exact Hk | exact H].
      * intros [[->|Hk] (pool & Hp & Hc)]; [|split; [exact Hk | eauto]].
        rewrite Hp, Hc in Hres. discriminate Hres.
    + rewrite !elem_of_cons, Hrest. split.
      * intros [[= -> ->]|[Hk H]]; [|split; [right; exact Hk | exact H]].
        split; [left; reflexivity|].
        destruct (connections m !! k0) as [pool|]; [|discriminate Hres].
        exists pool. split; [reflexivity|].
        destruct (close_all pool); [discriminate Hres | congruence].
      * intros [[->|Hk] (pool & Hp & Hc)]; [left | right; split; [exact Hk | eauto]].
        rewrite Hp, Hc in Hres. congruence.
Qed.

(** X12. The summary of a reload: [removed] counts the ids of the old
    registry that the new one lacks, [added] those of the new one that the
    old one lacks, [total] the ids of the new one, so that
    [total + removed] is the old number of ids plus [added]; and the failed
    stops are exactly the removed servers whose pool failed to close, each
    with the error of its pool. *)
Theorem update_registry_summary (m : ServerManager) (r : ServerRegistry) :
  let summary := snd (update_registry close_all m r) in
  removed summary = size (ids (registry m) ∖ ids r)
  /\ added summary = size (ids r ∖ ids (registry m))
  /\ total summary = size (ids r)
  /\ (total summary + removed summary = size (ids (registry m)) + added summary)%nat
  /\ (forall k e,
        (k, e) ∈ failed_stops summary
        <-> k ∈ ids (registry m) /\ (k ∉ ids r)
            /\ exists pool, connections m !! k = Some pool /\ close_all pool = Err e).
Proof.
  intros summary. subst summary. unfold update_registry.
  pose proof (stop_each_errors (elements (ids (registry m) ∖ ids r))
                (with_registry m r)) as Herr.
  destruct (stop_each close_all (with_registry m r) _) as [m' errors]. cbn [snd] in *.
  cbn [removed added total failed_stops].
  split; [reflexivity|]. split; [reflexivity|]. split; [reflexivity|]. split.
  - change (length (elements (ids (registry m) ∖ ids r)))
      with (size (ids (registry m) ∖ ids r)).
    rewrite <- (size_union_alt (ids r) (ids (registry m))).
    rewrite <- (size_union_alt (ids (registry m)) (ids r)).
    f_equal. apply set_eq. intros x. rewrite !elem_of_union. tauto.
  - intros k e. rewrite (Herr k e (NoDup_elements _)).
    rewrite elem_of_elements, elem_of_difference. cbn [connections with_registry]. tauto.
Qed.

End SweepFurther.

(** The second request of server [a], at time 900. *)
Lemma touch_postpones_idle_stop_witness :
  (exists s', Manager.states (Manager.touch serving_manager "a" 900) !! "a" = Some s'
              /\ Manager.request_count s' = 2%N /\ Manager.last_activity s' = 900%N)
  /\ "a" ∉ Manager.check_idle_servers (Manager.touch serving_manager "a" 900) 1000.
Proof.
  destruct (touch_postpones_idle_stop serving_manager "a" 900) as (H1 & _ & _ & H4).
  split.
  - destruct (H1 (Manager.running_since 0)) as (s' & Hs' & Hc & Hl & _).
    + vm_compute. reflexivity.
    + vm_compute. reflexivity.
    + exists s'. split; [exact Hs'|]. split; [exact Hc | exact Hl].
  - apply H4. vm_compute. discriminate.
Defined.

Lemma idle_sweep_spares_witness :
  ("a" ∉ Manager.check_idle_servers serving_manager 300)
  /\ Manager.states (fst (Manager.idle_sweep Manager.close_fails serving_manager 300)) !! "a"
     = Manager.states serving_manager !! "a"
  /\ Manager.connections
       (fst (Manager.idle_sweep Manager.close_fails serving_manager 300)) !! "a"
     = Manager.connections serving_manager !! "a".
Proof.
  apply (idle_sweep_spares Manager.close_fails serving_manager 300 "a").
  intros s Hs. right. vm_compute in Hs. injection Hs as <-. vm_compute. discriminate.
Defined.

Lemma update_registry_same_ids_witness :
  Manager.update_registry Manager.close_fails serving_manager
    (Registry.new [Registry.server_a; server_b_modified; server_c])
  = (Manager.with_registry serving_manager
       (Registry.new [Registry.server_a; server_b_modified; server_c]),
     {| Manager.added := 0; Manager.removed := 0;
        Manager.total := size (Registry.ids
                                 (Registry.new [Registry.server_a; server_b_modified;
                                                server_c]));
        Manager.failed_stops := [] |}).
Proof.
  apply (update_registry_same_ids Manager.close_fails serving_manager).
  vm_compute. reflexivity.
Defined.

(** ** Health checks and statistics *)

Section HealthFurther.
Import Runtime Pool Registry Manager Health.

Variable is_healthy : ConnectionPool -> bool.

Lemma probe_frame m entry :
  connections (probe is_healthy m entry) = connections m
  /\ registry (probe is_healthy m entry) = registry m
  /\ config (probe is_healthy m entry) = config m.
Proof.
  unfold probe. destruct (bool_decide _); [|repeat split].
  destruct (ping_server is_healthy m entry.1); repeat split.
Qed.

Lemma ping_server_connections m m' k :
  connections m' = connections m -> ping_server is_healthy m' k = ping_server is_healthy m k.
Proof. unfold ping_server. intros ->. reflexivity. Qed.

Lemma probe_states m k0 s0 k :
  states m !! k0 = Some s0 ->
  states (probe is_healthy m (k0, s0)) !! k
  = if decide (k0 = k) then Some (probe_state is_healthy m k0 s0) else states m !! k.
Proof.
  intros Hs. unfold probe, probe_state. cbn [fst snd].
  destruct (bool_decide (status s0 = Running)); cbn [andb].
  - destruct (ping_server is_healthy m k0); cbn [negb].
    + case_decide; [subst; exact Hs | reflexivity].
    + cbn. rewrite lookup_alter. case_decide; [subst; rewrite Hs|]; reflexivity.
  - case_decide; [subst; exact Hs | reflexivity].
Qed.

Lemma fold_probe l : forall m,
  NoDup l.*1 ->
  (forall k s, (k, s) ∈ l -> states m !! k = Some s) ->
  connections (fold_left (probe is_healthy) l m) = connections m
  /\ registry (fold_left (probe is_healthy) l m) = registry m
  /\ config (fold_left (probe is_healthy) l m) = config m
  /\ forall k,
       states (fold_left (probe is_healthy) l m) !! k
       = if decide (k ∈ l.*1) then probe_state is_healthy m k <$> states m !! k
         else states m !! k.
Proof.
  induction l as [|[k0 s0] l IH]; intros m Hnd Hl.
  - cbn. repeat split.
  - cbn [fmap list_fmap fst] in Hnd. apply NoDup_cons in Hnd as [Hfresh Hnd].
    assert (Hs0 : states m !! k0 = Some s0) by (apply Hl, list_elem_of_here).
    destruct (probe_frame m (k0, s0)) as (Hc & Hr & Hg).
    destruct (IH (probe is_healthy m (k0, s0)) Hnd) as (Hc' & Hr' & Hg' & Hst).
    { intros k s Hin. rewrite (probe_states m k0 s0 k Hs0), decide_False; [apply Hl, list_elem_of_further, Hin|].
      intros ->. apply Hfresh. apply list_elem_of_fmap. exists (k, s). split; [reflexivity | exact Hin]. }
    cbn [fold_left]. split; [congruence|]. split; [congruence|]. split; [congruence|].
    intros k. rewrite Hst. cbn [fmap list_fmap fst].
    rewrite (probe_states m k0 s0 k Hs0).
    destruct (decide (k0 = k)) as [<-|Hne].
    + rewrite decide_False by exact Hfresh.
      rewrite decide_True by apply list_elem_of_here. rewrite Hs0. reflexivity.
    + destruct (decide (k ∈ l.*1)) as [Hin|Hnin].
      * rewrite decide_True by (apply list_elem_of_further, Hin).
        destruct (states m !! k) as [s|]; [|reflexivity]. cbn. f_equal.
        unfold probe_state. rewrite (ping_server_connections m _ k Hc). reflexivity.
      * rewrite decide_False; [reflexivity|].
        intros Hin. apply elem_of_cons in Hin as [->|Hin]; contradiction.
Qed.

Lemma check_server_health_states m k :
  states (check_server_health is_healthy m) !! k
  = probe_state is_healthy m k <$> states m !! k.
Proof.
  unfold check_server_health.
  destruct (fold_probe (map_to_list (states m)) m (NoDup_fst_map_to_list _)) as (_ & _ & _ & H).
  { intros k' s Hin. apply elem_of_map_to_list, Hin. }
  rewrite H. case_decide as Hin; [reflexivity|].
  destruct (states m !! k) as [s|] eqn:Hs; [|reflexivity].
  exfalso. apply Hin. apply list_elem_of_fmap. exists (k, s).
  split; [reflexivity | apply elem_of_map_to_list, Hs].
Qed.

(** X13. A health check changes nothing but statuses, and those only from
    Running to Unhealthy: pools, registry and configuration stay; a Running
    server whose ping fails (its pool is missing or unhealthy) becomes
    Unhealthy with its counters and timestamps kept; every other server
    keeps its state, so that an Unhealthy server is never made Running
    again; and after the check every Running server has a healthy pool. *)
Theorem check_server_health_effect (m : ServerManager) :
  let m' := check_server_health is_healthy m in
  connections m' = connections m /\ registry m' = registry m /\ config m' = config m
  /\ (forall k s, states m !! k = Some s ->
        states m' !! k
        = Some (if bool_decide (status s = Running) && negb (ping_server is_healthy m k)
                then set_unhealthy s else s))
  /\ (forall k, states m !! k = None -> states m' !! k = None)
  /\ (forall k s', states m' !! k = Some s' -> status s' = Running ->
        exists pool, connections m' !! k = Some pool /\ is_healthy pool = true).
Proof.
  intros m'. subst m'.
  assert (Hc : connections (check_server_health is_healthy m) = connections m
               /\ registry (check_server_health is_healthy m) = registry m
               /\ config (check_server_health is_healthy m) = config m).
  { unfold check_server_health.
    destruct (fold_probe (map_to_list (states m)) m (NoDup_fst_map_to_list _))
      as (H1 & H2 & H3 & _); [|repeat split; assumption].
    intros k' s Hin. apply elem_of_map_to_list, Hin. }
  destruct Hc as (Hc & Hr & Hg).
  split; [exact Hc|]. split; [exact Hr|]. split; [exact Hg|]. split; [|split].
  - intros k s Hs. rewrite check_server_health_states, Hs. reflexivity.
  - intros k Hs. rewrite check_server_health_states, Hs. reflexivity.
  - intros k s' Hs' Hrun. rewrite check_server_health_states in Hs'.
    destruct (states m !! k) as [s|]; [|discriminate]. cbn in Hs'.
    injection Hs' as <-. unfold probe_state in Hrun. rewrite Hc.
    destruct (bool_decide (status s = Running)) eqn:Hb; cbn [andb] in Hrun.
    + unfold ping_server in Hrun.
      destruct (connections m !! k) as [pool|].
      * destruct (is_healthy pool) eqn:Hh; [eauto | cbn in Hrun; discriminate].
      * cbn in Hrun. discriminate.
    + apply bool_decide_eq_false in Hb. contradiction.
Qed.

End HealthFurther.

Example health_check_marks_unhealthy :
  Manager.status_of (Health.check_server_health Health.no_pool_healthy serving_manager) "a"
  = Some Manager.Unhealthy
  /\ Manager.check_idle_servers
       (Health.check_server_health Health.no_pool_healthy serving_manager) 1000 = [].
Proof. vm_compute. split; reflexivity. Qed.

Section StatsCounts.
Import Runtime Pool Registry Manager.

Lemma filter_length_le {A : Type} (f : A -> bool) (l : list A) :
  (length (List.filter f l) <= length l)%nat.
Proof. induction l as [|x l IH]; cbn; [lia|]. destruct (f x); cbn; lia. Qed.

Lemma filter_length_zero {A : Type} (f : A -> bool) (l : list A) :
  length (List.filter f l) = 0%nat <-> forall x, x ∈ l -> f x = false.
Proof.
  induction l as [|x l IH]; cbn.
  - split; [|reflexivity]. intros _ y Hy. apply not_elem_of_nil in Hy. contradiction.
  - destruct (f x) eqn:Hx; cbn.
    + split; [discriminate|]. intros H. specialize (H x (list_elem_of_here _ _)). congruence.
    + rewrite IH. split.
      * intros H y Hy. apply elem_of_cons in Hy as [->|Hy]; [exact Hx | apply H, Hy].
      * intros H y Hy. apply H, list_elem_of_further, Hy.
Qed.

Lemma filter_length_all {A : Type} (f : A -> bool) (l : list A) :
  length (List.filter f l) = length l <-> forall x, x ∈ l -> f x = true.
Proof.
  induction l as [|x l IH]; cbn.
  - split; [|reflexivity]. intros _ y Hy. apply not_elem_of_nil in Hy. contradiction.
  - pose proof (filter_length_le f l) as Hle. destruct (f x) eqn:Hx; cbn.
    + split.
      * intros H y Hy. apply elem_of_cons in Hy as [->|Hy]; [exact Hx|].
        apply IH; [lia | exact Hy].
      * intros H. f_equal. apply IH. intros y Hy. apply H, list_elem_of_further, Hy.
    + split; [lia|]. intros H. specialize (H x (list_elem_of_here _ _)). congruence.
Qed.

(** X14. The counters of [get_stats]: [total_servers] is the number of
    servers that have a state (the registry plays no part), the statistics
    have an entry for exactly those servers, [active_servers] never exceeds
    [total_servers], it is zero exactly when no server is Running and equal
    to [total_servers] exactly when all are; a server has an uptime exactly
    when it has a start time. *)
Theorem get_stats_counts (m : ServerManager) (now : N) :
  let stats := get_stats m now in
  total_servers stats = size (states m)
  /\ dom (stats_servers stats) = dom (states m)
  /\ (active_servers stats <= total_servers stats)%nat
  /\ (active_servers stats = 0%nat
      <-> forall k s, states m !! k = Some s -> status s <> Running)
  /\ (active_servers stats = total_servers stats
      <-> forall k s, states m !! k = Some s -> status s = Running)
  /\ (forall k st, stats_servers stats !! k = Some st ->
        (is_Some (uptime st) <-> is_Some (stats_started_at st))).
Proof.
  intros stats. subst stats. cbn [get_stats total_servers active_servers stats_servers].
  assert (Hsize : size (states m) = length (map_to_list (states m)))
    by (symmetry; apply length_map_to_list).
  split; [reflexivity|]. split; [apply dom_fmap_L|]. split; [|split; [|split]].
  - rewrite Hsize. apply filter_length_le.
  - rewrite filter_length_zero. split.
    + intros H k s Hs Hrun. specialize (H (k, s)). cbn in H.
      rewrite bool_decide_eq_false in H. apply H; [apply elem_of_map_to_list, Hs | exact Hrun].
    + intros H [k s] Hin. cbn. apply bool_decide_eq_false.
      apply (H k s), elem_of_map_to_list, Hin.
  - rewrite Hsize, filter_length_all. split.
    + intros H k s Hs. specialize (H (k, s)). cbn in H.
      rewrite bool_decide_eq_true in H. apply H, elem_of_map_to_list, Hs.
    + intros H [k s] Hin. cbn. apply bool_decide_eq_true.
      apply (H k s), elem_of_map_to_list, Hin.
  - intros k st. rewrite lookup_fmap. destruct (states m !! k) as [s|]; [|discriminate].
    cbn. intros [= <-]. cbn. rewrite fmap_is_Some. reflexivity.
Qed.

End StatsCounts.

(** ** HTTP: errors and authentication *)

Section ErrorStatus.
Import Status.

(** X15. Every [GatewayError] reaches the client with the same HTTP status
    on both paths of the code: converted to an [AppError] and then to a
    response, or converted directly; that is 404 for an unknown server, 502
    for a runtime error and 500 for anything else. The [error] field of
    the body is always the reason phrase of the status, and an unknown
    server is named in the message. *)
Theorem gateway_error_status_agrees (e : GatewayError) :
  fst (AppError_into_response (AppError_from e)) = GatewayError_into_response e
  /\ canonical_reason (fst (AppError_into_response (AppError_from e)))
     = Some (error (snd (AppError_into_response (AppError_from e))))
  /\ (forall k, e = ServerNotFound k ->
        AppError_into_response (AppError_from e)
        = (404%nat, {| error := "Not Found"; message := server_not_found_message k |})).
Proof.
  destruct e; cbn; repeat split; intros k' [= <-]; reflexivity.
Qed.

End ErrorStatus.

Section Authentication.
Import Auth.

Lemma strip_prefix_spec (prefix s k : string) :
  strip_prefix prefix s = Some k <-> s = String.append prefix k.
Proof.
  revert s. induction prefix as [|p prefix IH]; intros s; cbn.
  - split; [intros [= ->]; reflexivity | intros ->; reflexivity].
  - destruct s as [|c s].
    + split; discriminate.
    + destruct (Ascii.eqb_spec p c) as [->|Hne].
      * rewrite IH. split; [intros ->; reflexivity | intros [= ->]; reflexivity].
      * split; [discriminate | intros [= -> _]; contradiction].
Qed.

Lemma strip_prefix_none (prefix s : string) :
  strip_prefix prefix s = None <-> forall k, s <> String.append prefix k.
Proof.
  split.
  - intros H k Hs. apply strip_prefix_spec in Hs. congruence.
  - intros H. destruct (strip_prefix prefix s) as [k|] eqn:Hk; [|reflexivity].
    apply strip_prefix_spec in Hk. exfalso. exact (H k Hk).
Qed.

Lemma bearer_key request token :
  header request "authorization" = Some (String.append "Bearer " token) ->
  provided_key request = Some token.
Proof.
  intros H. unfold provided_key. rewrite H. cbn [mbind option_bind].
  rewrite (proj2 (strip_prefix_spec "Bearer " _ token) eq_refl). reflexivity.
Qed.

Lemma no_bearer_key request :
  (forall token, header request "authorization" <> Some (String.append "Bearer " token)) ->
  provided_key request = header request "x-api-key".
Proof.
  intros H. unfold provided_key.
  destruct (header request "authorization") as [h|]; [|reflexivity].
  cbn [mbind option_bind].
  rewrite (proj2 (strip_prefix_none "Bearer " h)); [reflexivity|].
  intros k ->. exact (H k eq_refl).
Qed.

(** X16. The decision of the authentication middleware in terms of the
    request. The exact path [/health] always reaches the service. On any
    other path: an [Authorization] header of the form [Bearer <token>]
    decides alone, whatever [X-API-Key] holds: the service is reached if
    the token is the API key and the answer is 403 otherwise; without such
    a header [X-API-Key] decides in the same way, and with neither the
    answer is 401. *)
Theorem auth_decision (inner : Request -> Response) (api_key : string) (request : Request) :
  (path request = "/health" -> call inner api_key request = inner request)
  /\ (path request <> "/health" ->
      (forall token,
         header request "authorization" = Some (String.append "Bearer " token) ->
         call inner api_key request
         = if String.eqb token api_key then inner request else forbidden)
      /\ ((forall token,
             header request "authorization" <> Some (String.append "Bearer " token)) ->
          (forall key, header request "x-api-key" = Some key ->
             call inner api_key request
             = if String.eqb key api_key then inner request else forbidden)
          /\ (header request "x-api-key" = None ->
              call inner api_key request = unauthorized))).
Proof.
  unfold call. split.
  - intros ->. reflexivity.
  - intros Hpath. destruct (String.eqb_spec (path request) "/health"); [contradiction|].
    split.
    + intros token H. rewrite (bearer_key request token H). reflexivity.
    + intros H. rewrite (no_bearer_key request H).
      split; [intros key -> | intros ->]; reflexivity.
Qed.

(** A wrong bearer token is refused although [X-API-Key] is right; a right
    [X-API-Key] passes next to a [Basic] authorization. *)
Lemma auth_decision_witness :
  call ok_service "secret"
    (request_with "/servers" [("authorization", Text "Bearer wrong");
                              ("x-api-key", Text "secret")])
  = forbidden
  /\ call ok_service "secret"
       (request_with "/servers" [("authorization", Text "Basic dXNlcg==");
                                 ("x-api-key", Text "secret")])
     = ok_service (request_with "/servers" [("authorization", Text "Basic dXNlcg==");
                                            ("x-api-key", Text "secret")]).
Proof.
  split.
  - destruct (auth_decision ok_service "secret"
                (request_with "/servers" [("authorization", Text "Bearer wrong");
                                          ("x-api-key", Text "secret")])) as [_ H].
    destruct H as [H _]; [discriminate|].
    apply (H "wrong"). reflexivity.
  - destruct (auth_decision ok_service "secret"
                (request_with "/servers" [("authorization", Text "Basic dXNlcg==");
                                          ("x-api-key", Text "secret")])) as [_ H].
    destruct H as [_ H]; [discriminate|].
    destruct H as [H _].
    + intros token Hh. vm_compute in Hh. discriminate Hh.
    + apply (H "secret"). reflexivity.
Defined.

(** X17. A request that the middleware refuses never reaches the service:
    on a path other than [/health], when the key provided is not the API
    key, the response is the same for every service behind the middleware;
    it is 401 when no key was provided and 403 when a wrong one was. When
    no API key is configured there is no middleware and every request
    reaches the service. *)
Theorem auth_refusal_skips_service (api_key : string) (request : Request) :
  path request <> "/health" ->
  provided_key request <> Some api_key ->
  (forall inner inner', call inner api_key request = call inner' api_key request)
  /\ (forall inner,
        status (call inner api_key request)
        = match provided_key request with Some _ => 403%nat | None => 401%nat end)
  /\ (forall inner, protect inner None request = inner request).
Proof.
  intros Hpath Hkey.
  assert (H : forall inner,
            call inner api_key request
            = match provided_key request with
              | Some _ => forbidden
              | None => unauthorized
              end).
  { intros inner. unfold call.
    destruct (String.eqb_spec (path request) "/health"); [contradiction|].
    destruct (provided_key request) as [key|]; [|reflexivity].
    destruct (String.eqb_spec key api_key); [congruence | reflexivity]. }
  split; [|split].
  - intros inner inner'. rewrite (H inner), (H inner'). reflexivity.
  - intros inner. rewrite (H inner). destruct (provided_key request); reflexivity.
  - reflexivity.
Qed.

Lemma auth_refusal_witness :
  status (call ok_service "secret" (request_with "/health/" [])) = 401%nat.
Proof.
  destruct (auth_refusal_skips_service "secret" (request_with "/health/" []))
    as (_ & H & _); [discriminate | discriminate |].
  apply (H ok_service).
Defined.

End Authentication.

(** ** HTTP: listing, details and statistics *)

Section ListingFurther.
Import Runtime Pool Registry Manager Http.

Lemma get_stats_state (m : ServerManager) (now : N) (k : string) (s : ServerState) :
  states m !! k = Some s -> stats_servers (get_stats m now) !! k = Some (stats_of now s).
Proof. intros H. cbn. rewrite lookup_fmap, H. reflexivity. Qed.

Lemma list_servers_elem m now params i :
  i ∈ map (server_info (get_stats m now))
          (List.filter (tag_matches params) (all (registry m)))
  <-> exists server, i = server_info (get_stats m now) server
                     /\ server ∈ all (registry m) /\ tag_matches params server = true.
Proof.
  rewrite list_elem_of_fmap. split.
  - intros [server [-> Hin]]. apply list_elem_of_In, filter_In in Hin as [Hin Ht].
    exists server. split; [reflexivity|]. split; [apply list_elem_of_In, Hin | exact Ht].
  - intros [server (-> & Hin & Ht)]. exists server. split; [reflexivity|].
    apply list_elem_of_In, filter_In. split; [apply list_elem_of_In, Hin | exact Ht].
Qed.

(** X18. For a server of the registry that has a [ServerState],
    [get_server] and the entry of [list_servers] agree with each other and
    with the state: both report its status, request count, start time and
    last activity, and [get_server] reports as uptime the time since the
    start, if the server was started. *)
Theorem list_and_get_report_state
    (m : ServerManager) (now : N) (k : string)
    (server : ServerDefinition) (s : ServerState) :
  get (registry m) k = Some server ->
  id server = k ->
  states m !! k = Some s ->
  exists d infos i,
    get_server m now k = Ok d
    /\ list_servers m now {| tag := None |} = Ok infos
    /\ i ∈ infos /\ info_id i = k
    /\ detail_status d = status s /\ info_status i = status s
    /\ detail_request_count d = request_count s /\ info_request_count i = request_count s
    /\ detail_started_at d = started_at s /\ info_started_at i = started_at s
    /\ detail_last_activity d = Some (last_activity s)
    /\ info_last_activity i = Some (last_activity s)
    /\ detail_uptime_seconds d = (fun t => (now - t)%N) <$> started_at s.
Proof.
  intros Hget Hid Hs.
  pose proof (get_stats_state m now k s Hs) as Hst.
  eexists. exists (map (server_info (get_stats m now))
                       (List.filter (tag_matches {| tag := None |}) (all (registry m)))).
  exists (server_info (get_stats m now) server).
  split; [unfold get_server; rewrite Hget, Hst; reflexivity|].
  split; [reflexivity|]. split.
  - apply list_servers_elem. exists server. split; [reflexivity|].
    split; [apply elem_of_all; exists k; exact Hget | reflexivity].
  - unfold server_info. rewrite Hid, Hst. cbn. repeat split; reflexivity.
Qed.

Lemma list_and_get_report_state_witness :
  exists d i,
    get_server serving_manager 1000 "a" = Ok d
    /\ detail_status d = Running /\ info_status i = Running
    /\ detail_uptime_seconds d = Some 1000%N.
Proof.
  destruct (list_and_get_report_state serving_manager 1000 "a" server_a (running_since 0))
    as (d & infos & i & Hd & _ & _ & _ & Hds & His & _ & _ & _ & _ & _ & _ & Hup).
  - vm_compute. reflexivity.
  - reflexivity.
  - vm_compute. reflexivity.
  - exists d, i. repeat split; assumption.
Defined.

(** X19. The tag filter of [list_servers]: with a tag, every entry listed
    carries the tag and every server of the registry that carries it is
    listed; without a tag, every server of the registry is listed; in both
    cases only servers of the registry are listed, so that a server that
    has a state but is not in the registry never appears. *)
Theorem list_servers_tag_filter (m : ServerManager) (now : N) (params : ListParams) :
  exists infos,
    list_servers m now params = Ok infos
    /\ (forall i, i ∈ infos ->
          (exists server, server ∈ all (registry m) /\ info_id i = id server
                          /\ info_tags i = tags server)
          /\ (forall t, tag params = Some t -> t ∈ info_tags i))
    /\ (forall server, server ∈ all (registry m) ->
          (forall t, tag params = Some t -> t ∈ tags server) ->
          server_info (get_stats m now) server ∈ infos)
    /\ (tag params = None -> length infos = size (servers (registry m))).
Proof.
  eexists. split; [reflexivity|]. split; [|split].
  - intros i Hi. apply list_servers_elem in Hi as [server (-> & Hin & Ht)]. split.
    + exists server. repeat split. exact Hin.
    + intros t Htag. unfold tag_matches in Ht. rewrite Htag in Ht. cbn in Ht.
      apply bool_decide_eq_true in Ht. exact Ht.
  - intros server Hin Htags. apply list_servers_elem. exists server.
    split; [reflexivity|]. split; [exact Hin|].
    unfold tag_matches. destruct (tag params) as [t|]; [|reflexivity].
    cbn. apply bool_decide_eq_true, Htags. reflexivity.
  - intros Hnone. rewrite length_map. unfold tag_matches. rewrite Hnone. cbn.
    assert (Hall : forall l : list ServerDefinition, List.filter (fun _ => true) l = l).
    { induction l as [|x l IH]; cbn; [|rewrite IH]; reflexivity. }
    rewrite Hall. apply length_all.
Qed.

Variable close_all : ConnectionPool -> Result unit GatewayError.

(** X20. A server that a reload removed from the registry while it had a
    state is unknown to [get_server] and absent from [list_servers], but
    [stats] still reports it: its entry stays in the statistics and it
    still counts in [total_servers]. *)
Theorem removed_server_stays_in_stats
    (m : ServerManager) (r : ServerRegistry) (k : string) (s : ServerState)
    (now start_time : N) (last_reload : option N) (params : ListParams) :
  k ∈ ids (registry m) -> k ∉ ids r ->
  states m !! k = Some s ->
  Exchange.well_keyed r ->
  let m' := fst (update_registry close_all m r) in
  get_server m' now k = Err (NotFound (server_not_found_message k))
  /\ (forall infos, list_servers m' now params = Ok infos ->
        forall i, i ∈ infos -> info_id i <> k)
  /\ (exists body entry,
        Exchange.stats m' now start_time last_reload = Ok body
        /\ Exchange.body_servers body !! k = Some entry
        /\ Exchange.json_request_count entry = request_count s
        /\ (0 < Exchange.body_total_servers body)%nat).
Proof.
  intros Hold Hnew Hs Hkeyed m'. subst m'.
  destruct (update_registry_removed close_all m r k Hold Hnew) as [Hst _].
  pose proof (update_registry_registry close_all m r) as Hreg.
  set (m' := fst (update_registry close_all m r)) in *.
  assert (Hnone : get (registry m') k = None)
    by (rewrite Hreg; apply not_elem_of_dom, Hnew).
  split; [unfold get_server; rewrite Hnone; reflexivity|]. split.
  - intros infos [= <-] i Hi Hid.
    apply list_servers_elem in Hi as [server (-> & Hin & _)].
    apply elem_of_all in Hin as [k' Hk']. rewrite Hreg in Hk'.
    pose proof (Hkeyed k' server Hk') as Hkey. cbn in Hid.
    apply Hnew, elem_of_dom. exists server. congruence.
  - rewrite Hs in Hst. cbn in Hst.
    eexists. eexists. split; [reflexivity|]. cbn.
    rewrite !lookup_fmap, Hst. cbn. split; [reflexivity|]. split.
    + unfold state_after_stop.
      destruct (connections m !! k) as [pool|]; [destruct (close_all pool)|]; reflexivity.
    + destruct (size (states m')) eqn:Hsize; [|lia].
      apply map_size_empty_iff in Hsize. rewrite Hsize, lookup_empty in Hst. discriminate.
Qed.

End ListingFurther.

Lemma insert_all_well_keyed (defs : list Registry.ServerDefinition) :
  forall m0 : gmap string Registry.ServerDefinition,
    (forall k d, m0 !! k = Some d -> Registry.id d = k) ->
    forall k d,
      fold_left (fun m d => <[Registry.id d := d]> m) defs m0 !! k = Some d ->
      Registry.id d = k.
Proof.
  induction defs as [|d0 defs IH]; intros m0 H0 k d; cbn; [apply H0|].
  apply IH. intros k' d'. rewrite lookup_insert. case_decide; [|apply H0].
  intros [= <-]. congruence.
Qed.

Lemma new_well_keyed (defs : list Registry.ServerDefinition) :
  Exchange.well_keyed (Registry.new defs).
Proof.
  intros k d. unfold Registry.new. cbn.
  apply insert_all_well_keyed. intros k' d'. rewrite lookup_empty. discriminate.
Qed.

(** After the reload from [{a, b, c}] to [{b, c, d}], [a] is unknown to
    [get_server] and still in the statistics, with its one request. *)
Lemma removed_server_stays_in_stats_witness :
  Http.get_server
    (fst (Manager.update_registry Manager.close_ok serving_manager new_registry)) 1000 "a"
  = Err (NotFound "Server 'a' not found")
  /\ exists body entry,
       Exchange.stats
         (fst (Manager.update_registry Manager.close_ok serving_manager new_registry))
         1000 0 None = Ok body
       /\ Exchange.body_servers body !! "a" = Some entry
       /\ Exchange.json_request_count entry = 1%N
       /\ (0 < Exchange.body_total_servers body)%nat.
Proof.
  destruct (removed_server_stays_in_stats Manager.close_ok serving_manager new_registry
              "a" (Manager.running_since 0) 1000 0 None {| Http.tag := None |})
    as (Hget & _ & Hstats).
  - apply in_old_registry, list_elem_of_here.
  - apply a_not_in_new_registry.
  - vm_compute. reflexivity.
  - apply new_well_keyed.
  - split; [exact Hget | exact Hstats].
Defined.

(** ** HTTP: message exchange *)

Section ExchangeFurther.
Import Runtime Pool Registry Manager.

Variable start_server : ServerManager -> string -> ServerManager * Result unit GatewayError.
Variable wait_for_ready : ServerManager -> string -> ServerManager * Result unit GatewayError.

(** X21. What [get_connection] guarantees when it returns a handle,
    whatever the start and readiness routines do: the server has a pool,
    the handle names a slot of that pool, and the last activity of the
    server, if it has a state, is the time of the call. *)
Theorem get_connection_handle
    (m m' : ServerManager) (k : string)
    (connect : Result BackendConnection GatewayError) (now : N) (c : PooledConnection) :
  get_connection start_server wait_for_ready m k connect now = (m', Return (Ok c)) ->
  (exists pool, connections m' !! k = Some pool /\ (idx c < live pool)%nat)
  /\ (forall s, states m' !! k = Some s -> last_activity s = now).
Proof.
  unfold get_connection.
  destruct (get_status m k) as [st|e]; [|discriminate].
  destruct (if bool_decide (st = Stopped) then start_server m k else (m, Ok tt))
    as [m1 [u|e]]; [|discriminate].
  destruct (wait_for_ready m1 k) as [m2 [u'|e]]; [|discriminate].
  destruct (connections m2 !! k) as [pool|] eqn:Hp; [|discriminate].
  destruct (Pool.get connect pool) as [pool' [[c'|e]|msg]] eqn:Hg; try discriminate.
  intros [= <- <-]. split.
  - exists pool'. cbn. rewrite lookup_insert_eq. split; [reflexivity|].
    exact (get_returns_slot connect pool pool' c' Hg).
  - intros s. cbn. rewrite lookup_alter_eq.
    destruct (states m2 !! k) as [s2|]; [|discriminate]. intros [= <-]. reflexivity.
Qed.

(** X22. What [mcp_request] hands to the backend and returns from it: the
    only message it can send is the one built from the request, with the
    request's version, id, method and parameters and never a result or an
    error, so that it has exactly one of the three shapes precisely when
    the request names a method; a response is returned only if the backend
    produced it, and is returned unchanged; and when the connection cannot
    be acquired nothing is sent. *)
Theorem mcp_request_forwards_request
    (m : ServerManager) (request : Exchange.McpRequest)
    (connect : Result BackendConnection GatewayError) (now : N)
    (send_result : Result unit GatewayError)
    (recv_result : Result (option Message.McpMessage) GatewayError) :
  let message := Exchange.to_message request in
  let outcome := Exchange.mcp_request start_server wait_for_ready m request connect now
                   send_result recv_result in
  Message.is_response message = false
  /\ Message.exactly_one (Message.is_request message) (Message.is_response message)
       (Message.is_notification message)
     = is_some (Exchange.method request)
  /\ (snd (fst outcome) = [] \/ snd (fst outcome) = [message])
  /\ (forall response, snd outcome = Return (Ok response) ->
        recv_result = Ok (Some response) /\ snd (fst outcome) = [message]
        /\ exists u, send_result = Ok u)
  /\ ((forall c, snd (Http.acquire start_server wait_for_ready m
                        (Exchange.server_id request) connect now) <> Return (Ok c)) ->
      snd (fst outcome) = []).
Proof.
  intros message outcome. subst message outcome.
  split; [reflexivity|]. split.
  { unfold Message.is_request, Message.is_response, Message.is_notification, is_none.
    cbn. destruct (Exchange.method request), (Exchange.id request); reflexivity. }
  unfold Exchange.mcp_request, Exchange.forward.
  destruct (Http.acquire start_server wait_for_ready m (Exchange.server_id request)
              connect now) as [m' [[c|e]|msg]]; cbn [fst snd].
  - unfold Exchange.exchange.
    destruct send_result as [u|e]; cbn.
    + destruct recv_result as [[response|]|e]; cbn.
      * split; [right; reflexivity|]. split.
        -- intros r [= <-]. repeat split. eexists. reflexivity.
        -- intros H. exfalso. exact (H c eq_refl).
      * split; [right; reflexivity|]. split; [discriminate|].
        intros H. exfalso. exact (H c eq_refl).
      * split; [right; reflexivity|]. split; [discriminate|].
        intros H. exfalso. exact (H c eq_refl).
    + split; [right; reflexivity|]. split; [discriminate|].
      intros H. exfalso. exact (H c eq_refl).
  - split; [left; reflexivity|]. split; [discriminate | reflexivity].
  - split; [left; reflexivity|]. split; [discriminate | reflexivity].
Qed.

End ExchangeFurther.

(** A request for the running server [a]. *)
Lemma get_connection_handle_witness :
  let m' := fst (Manager.get_connection start_anything always_ready serving_manager "a"
                   Pool.fresh_connection 1000) in
  (exists pool, Manager.connections m' !! "a" = Some pool
                /\ (Pool.idx {| Pool.idx := 0 |} < Pool.live pool)%nat)
  /\ (forall s, Manager.states m' !! "a" = Some s -> Manager.last_activity s = 1000%N).
Proof.
  apply (get_connection_handle start_anything always_ready serving_manager _ "a"
           Pool.fresh_connection 1000 {| Pool.idx := 0 |}).
  vm_compute. reflexivity.
Defined.

Lemma mcp_request_forwards_request_witness :
  (Ok (Some Message.request_with_result)
   : Result (option Message.McpMessage) GatewayError)
  = Ok (Some Message.request_with_result)
  /\ snd (fst (Exchange.mcp_request start_anything always_ready serving_manager
                 Exchange.sample_request Pool.fresh_connection 1000 (Ok tt)
                 (Ok (Some Message.request_with_result))))
     = [Exchange.to_message Exchange.sample_request]
  /\ exists u, (Ok tt : Result unit GatewayError) = Ok u.
Proof.
  destruct (mcp_request_forwards_request start_anything always_ready serving_manager
              Exchange.sample_request Pool.fresh_connection 1000 (Ok tt)
              (Ok (Some Message.request_with_result))) as (_ & _ & _ & H & _).
  apply (H Message.request_with_result). vm_compute. reflexivity.
Defined.

(** ** The line protocol of local processes *)

Section LineProtocol.
Import Wire.

Variable to_string : Message.McpMessage -> Result Text GatewayError.
Variable from_str : Text -> Result Message.McpMessage GatewayError.
Variable io_error : string -> GatewayError.

Lemma append_assoc (a b c : string) :
  String.append (String.append a b) c = String.append a (String.append b c).
Proof.
  induction a as [|x a IH]; [reflexivity|].
  change (String x (String.append (String.append a b) c)
          = String x (String.append a (String.append b c))).
  f_equal. exact IH.
Qed.

Lemma append_empty_r (a : string) : String.append a EmptyString = a.
Proof.
  induction a as [|x a IH]; [reflexivity|].
  change (String x (String.append a EmptyString) = String x a).
  f_equal. exact IH.
Qed.

Lemma read_line_one (json rest : string) :
  single_line json = true ->
  read_line (String.append json (String.append newline rest))
  = (String.append json newline, rest).
Proof.
  induction json as [|c json IH]; intros H; [reflexivity|].
  change (read_line (String c (String.append json (String.append newline rest)))
          = (String c (String.append json newline), rest)).
  cbn [read_line single_line] in *. apply andb_true_iff in H as [Hc Hs].
  destruct (Ascii.eqb c newline_char); [discriminate|].
  rewrite (IH Hs). reflexivity.
Qed.

Lemma read_line_last (s : string) :
  single_line s = true -> read_line s = (s, EmptyString).
Proof.
  induction s as [|c s IH]; intros H; [reflexivity|].
  cbn [read_line single_line] in *. apply andb_true_iff in H as [Hc Hs].
  destruct (Ascii.eqb c newline_char); [discriminate|].
  rewrite (IH Hs). reflexivity.
Qed.

Lemma length_append_newline (json : string) :
  (String.length (String.append json newline) =? 0)%nat = false.
Proof. destruct json; reflexivity. Qed.

(** Decoding a concatenation goes on, after the first part, in the state
    that the first part leaves. *)
Lemma utf8_run_app (a b : string) : forall st,
  utf8_run st (String.append a b)
  = match utf8_run st a with
    | Some st' => utf8_run st' b
    | None => None
    end.
Proof.
  induction a as [|c a IH]; intros st; [reflexivity|].
  change (utf8_run st (String c (String.append a b))
          = match utf8_run st (String c a) with
            | Some st' => utf8_run st' b
            | None => None
            end).
  cbn [utf8_run]. destruct (utf8_step st (Ascii.N_of_ascii c)) as [st'|]; [apply IH | reflexivity].
Qed.

(** A newline is a character of its own: it neither completes nor breaks
    the text before it. *)
Lemma valid_utf8_newline (a : string) :
  valid_utf8 (String.append a newline) = valid_utf8 a.
Proof.
  unfold valid_utf8. rewrite utf8_run_app.
  destruct (utf8_run Boundary a) as [[]|]; reflexivity.
Qed.

Lemma text_eq (s t : Text) : as_bytes s = as_bytes t -> s = t.
Proof.
  destruct s as [a Ha], t as [b Hb]. cbn. intros ->.
  f_equal. apply proof_irrel.
Qed.

Lemma from_utf8_text (line : Text) : from_utf8 (as_bytes line) = Some line.
Proof.
  unfold from_utf8. destruct (decide (valid_utf8 (as_bytes line) = true)) as [H|H].
  - f_equal. apply text_eq. reflexivity.
  - destruct (H (as_bytes_utf8 line)).
Qed.

Lemma from_utf8_garbled (bytes : string) :
  valid_utf8 bytes = false -> from_utf8 bytes = None.
Proof.
  intros H. unfold from_utf8.
  destruct (decide (valid_utf8 bytes = true)) as [H'|_]; [congruence | reflexivity].
Qed.

Lemma recv_line (p : Pipes) (json rest : string) :
  stdout_error p = None ->
  single_line json = true ->
  stdout p = String.append json (String.append newline rest) ->
  recv from_str io_error p
  = (with_stdout p rest, answer from_str io_error (String.append json newline)).
Proof.
  intros He Hs Hout. unfold recv, answer.
  rewrite He, Hout, (read_line_one json rest Hs).
  rewrite length_append_newline. unfold with_stdout. rewrite He.
  destruct (from_utf8 (String.append json newline)) as [line|]; [|reflexivity].
  destruct (from_str line); reflexivity.
Qed.

Lemma recv_last (p : Pipes) (json : string) :
  stdout_error p = None ->
  single_line json = true ->
  stdout p = json -> json <> EmptyString ->
  recv from_str io_error p = (with_stdout p EmptyString, answer from_str io_error json).
Proof.
  intros He Hs Hout Hne. unfold recv, answer.
  rewrite He, Hout, (read_line_last json Hs).
  destruct json as [|c json]; [contradiction|]. cbn [String.length Nat.eqb].
  unfold with_stdout. rewrite He.
  destruct (from_utf8 (String c json)) as [line|]; [|reflexivity].
  destruct (from_str line); reflexivity.
Qed.

Lemma recv_end (p : Pipes) :
  stdout_error p = None -> stdout p = EmptyString ->
  recv from_str io_error p = (p, Ok None).
Proof. intros He Hout. unfold recv. rewrite He, Hout. reflexivity. Qed.

Lemma answer_text (line : Text) :
  answer from_str io_error (as_bytes line)
  = match from_str line with
    | Ok message => Ok (Some message)
    | Err e => Err e
    end.
Proof. unfold answer. rewrite from_utf8_text. destruct (from_str line); reflexivity. Qed.

Lemma answer_garbled (bytes : string) :
  valid_utf8 bytes = false -> answer from_str io_error bytes = Err (io_error invalid_utf8).
Proof. intros H. unfold answer. rewrite (from_utf8_garbled bytes H). reflexivity. Qed.

Lemma send_all_frames
    (messages : list Message.McpMessage) (jsons : list Text) :
  Forall2 (fun message json => to_string message = Ok json) messages jsons ->
  forall p, stdin_error p = None ->
    send_all to_string io_error p messages
    = (with_stdin p (String.append (stdin p) (frames jsons)), Ok tt).
Proof.
  induction 1 as [|message json messages jsons Hj _ IH]; intros p He.
  - cbn. rewrite append_empty_r. destruct p. cbn in *. reflexivity.
  - cbn [send_all]. unfold send. rewrite Hj, He.
    rewrite IH by reflexivity. unfold with_stdin.
    cbn [stdin stdin_error stdout stdout_error frames].
    rewrite ?He, !append_assoc. reflexivity.
Qed.

(** X23. [send] writes each message as one frame: while the pipe accepts
    writes, sending a list of messages appends to the child's input the
    serialized messages in order, each followed by one newline, and
    nothing else; what the child can read is untouched. *)
Theorem send_all_writes_frames
    (p : Pipes) (messages : list Message.McpMessage) (jsons : list Text) :
  stdin_error p = None ->
  Forall2 (fun message json => to_string message = Ok json) messages jsons ->
  send_all to_string io_error p messages
  = (with_stdin p (String.append (stdin p) (frames jsons)), Ok tt)
  /\ stdout (fst (send_all to_string io_error p messages)) = stdout p.
Proof.
  intros He H. rewrite (send_all_frames messages jsons H p He).
  split; reflexivity.
Qed.

(** X24. [recv] reads one line: when the child's output starts with bytes
    without newline followed by a newline, [recv] takes exactly that line
    off the output, newline included, and leaves the rest for the next
    call. If the bytes of the line are a text, that is, valid UTF-8,
    [recv] answers what the parser makes of that text; if they are not,
    which is the case exactly when the bytes before the newline are not,
    [recv] answers the I/O error of [read_line] whatever the parser is.
    A last line without newline is read in the same way, and at the end of
    the output [recv] returns [None] and changes nothing. *)
Theorem recv_reads_one_line (p : Pipes) (json rest : string) :
  stdout_error p = None ->
  single_line json = true ->
  (stdout p = String.append json (String.append newline rest) ->
   (forall line : Text,
      as_bytes line = String.append json newline ->
      recv from_str io_error p
      = (with_stdout p rest,
         match from_str line with
         | Ok message => Ok (Some message)
         | Err e => Err e
         end))
   /\ (valid_utf8 json = false ->
       recv from_str io_error p = (with_stdout p rest, Err (io_error invalid_utf8))))
  /\ (stdout p = json -> json <> EmptyString ->
      (forall line : Text,
         as_bytes line = json ->
         recv from_str io_error p
         = (with_stdout p EmptyString,
            match from_str line with
            | Ok message => Ok (Some message)
            | Err e => Err e
            end))
      /\ (valid_utf8 json = false ->
          recv from_str io_error p
          = (with_stdout p EmptyString, Err (io_error invalid_utf8))))
  /\ (stdout p = EmptyString -> recv from_str io_error p = (p, Ok None)).
Proof.
  intros He Hs. split; [|split].
  - intros Hout. rewrite (recv_line p json rest He Hs Hout). split.
    + intros line <-. rewrite answer_text. reflexivity.
    + intros Hbad. rewrite answer_garbled; [reflexivity|].
      rewrite valid_utf8_newline. exact Hbad.
  - intros Hout Hne. rewrite (recv_last p json He Hs Hout Hne). split.
    + intros line <-. rewrite answer_text. reflexivity.
    + intros Hbad. rewrite (answer_garbled json Hbad). reflexivity.
  - intros Hout. apply recv_end; assumption.
Qed.

Lemma recv_each_frames (messages : list Message.McpMessage) (jsons : list Text) :
  Forall2 (round_trips to_string from_str) messages jsons ->
  forall p, stdout_error p = None -> stdout p = frames jsons ->
    recv_each from_str io_error (S (length messages)) p
    = (with_stdout p EmptyString,
       (map (fun message => Ok (Some message)) messages ++ [Ok None])%list).
Proof.
  induction 1 as [|message json messages jsons (Hj & Hs & Hp) _ IH]; intros p He Hout.
  - cbn [recv_each length]. cbn in Hout. rewrite (recv_end p He Hout).
    destruct p. cbn in *. subst. reflexivity.
  - cbn [length]. change (recv_each from_str io_error (S (S (length messages))) p)
      with (let '(self', r) := recv from_str io_error p in
            let '(self'', rs) := recv_each from_str io_error (S (length messages)) self' in
            (self'', r :: rs)).
    cbn [frames] in Hout.
    rewrite (recv_line p (as_bytes json) (frames jsons) He Hs Hout).
    assert (Hv : valid_utf8 (String.append (as_bytes json) newline) = true)
      by (rewrite valid_utf8_newline; apply as_bytes_utf8).
    set (line := {| as_bytes := String.append (as_bytes json) newline;
                    as_bytes_utf8 := Hv |}).
    pose proof (answer_text line) as Ha.
    rewrite (Hp line eq_refl) in Ha. cbn [as_bytes line] in Ha. rewrite Ha.
    rewrite (IH (with_stdout p (frames jsons)) He eq_refl). reflexivity.
Qed.

(** X25. Framing is lossless: if every message serializes to a text
    without newline that parses back to the message, then from a child
    whose output is the frames of a list of messages, as [send] writes
    them, successive calls of [recv] return these messages in order,
    followed by [None] for the end of the output. *)
Theorem frames_round_trip
    (p q : Pipes) (messages : list Message.McpMessage) (jsons : list Text) :
  Forall2 (round_trips to_string from_str) messages jsons ->
  stdin_error p = None -> stdin p = EmptyString ->
  stdout_error q = None ->
  stdout q = stdin (fst (send_all to_string io_error p messages)) ->
  snd (recv_each from_str io_error (S (length messages)) q)
  = (map (fun message => Ok (Some message)) messages ++ [Ok None])%list.
Proof.
  intros H Hpe Hin Hqe Hout.
  assert (Hjs : Forall2 (fun message json => to_string message = Ok json) messages jsons).
  { eapply Forall2_impl; [exact H|]. intros message json (Hj & _). exact Hj. }
  assert (Hw : stdin (fst (send_all to_string io_error p messages)) = frames jsons).
  { rewrite (send_all_frames messages jsons Hjs p Hpe). cbn. rewrite Hin. reflexivity. }
  rewrite Hw in Hout. rewrite (recv_each_frames messages jsons H q Hqe Hout). reflexivity.
Qed.

End LineProtocol.

(** One notification written to a child and read back from its output. *)
Lemma send_all_writes_frames_witness :
  fst (Wire.send_all Wire.method_to_string RuntimeError (Wire.open_pipes EmptyString)
         [Message.sample_notification])
  = Wire.with_stdin (Wire.open_pipes EmptyString)
      (String.append "notifications/event" Wire.newline).
Proof.
  destruct (send_all_writes_frames Wire.method_to_string RuntimeError
              (Wire.open_pipes EmptyString) [Message.sample_notification]
              [Wire.sample_text]) as [H _].
  - reflexivity.
  - constructor; [vm_compute; reflexivity | constructor].
  - rewrite H. reflexivity.
Defined.

(** A line of text is parsed and the bytes after it are left; a line that
    is no UTF-8 is taken off the output as well, and answered by the error
    of the read. *)
Lemma recv_reads_one_line_witness :
  Wire.recv Wire.method_from_str RuntimeError
    (Wire.open_pipes (String.append "tools/list" (String.append Wire.newline "ping")))
  = (Wire.with_stdout
       (Wire.open_pipes (String.append "tools/list" (String.append Wire.newline "ping")))
       "ping",
     match Wire.method_from_str Wire.sample_line with
     | Ok message => Ok (Some message)
     | Err e => Err e
     end)
  /\ Wire.recv Wire.method_from_str RuntimeError
       (Wire.open_pipes (String.append Wire.garbled (String.append Wire.newline "ping")))
     = (Wire.with_stdout
          (Wire.open_pipes (String.append Wire.garbled (String.append Wire.newline "ping")))
          "ping",
        Err (RuntimeError Wire.invalid_utf8)).
Proof.
  split.
  - destruct (recv_reads_one_line Wire.method_from_str RuntimeError
                (Wire.open_pipes
                   (String.append "tools/list" (String.append Wire.newline "ping")))
                "tools/list" "ping") as [H _]; [reflexivity | reflexivity |].
    destruct H as [H _]; [reflexivity|].
    apply (H Wire.sample_line). reflexivity.
  - destruct (recv_reads_one_line Wire.method_from_str RuntimeError
                (Wire.open_pipes
                   (String.append Wire.garbled (String.append Wire.newline "ping")))
                Wire.garbled "ping") as [H _]; [reflexivity | reflexivity |].
    destruct H as [_ H]; [reflexivity|].
    apply H. reflexivity.
Defined.

Lemma frames_round_trip_witness :
  snd (Wire.recv_each Wire.method_from_str RuntimeError 2
         (Wire.open_pipes (String.append "notifications/event" Wire.newline)))
  = [Ok (Some Message.sample_notification); Ok None].
Proof.
  apply (frames_round_trip Wire.method_to_string Wire.method_from_str RuntimeError
           (Wire.open_pipes EmptyString)
           (Wire.open_pipes (String.append "notifications/event" Wire.newline))
           [Message.sample_notification] [Wire.sample_text]).
  - constructor; [|constructor]. split; [vm_compute; reflexivity|].
    split; [reflexivity|].
    intros line Hline. unfold Wire.method_from_str. rewrite Hline. reflexivity.
  - reflexivity.
  - reflexivity.
  - reflexivity.
  - vm_compute. reflexivity.
Defined.

Lemma run_keeps_connections_witness :
  Pool.connections
    (Pool.run [Pool.OpRelease 0; Pool.OpGet Pool.fresh_connection;
               Pool.OpGet Pool.fresh_connection] Pool.busy_pool) !! 0%nat
  = Some (Runtime.LocalConn Runtime.sample_connection).
Proof.
  apply (proj2 (run_keeps_connections
                  [Pool.OpRelease 0; Pool.OpGet Pool.fresh_connection;
                   Pool.OpGet Pool.fresh_connection] Pool.busy_pool)).
  reflexivity.
Defined.

(** A shutdown in which no pool closes stops at the first server. *)
Lemma shutdown_all_outcome_witness :
  exists k s pool,
    Manager.states serving_manager !! k = Some s
    /\ Manager.connections serving_manager !! k = Some pool
    /\ Manager.close_fails pool = Err (RuntimeError "kill failed")
    /\ Manager.states (fst (Manager.shutdown_all Manager.close_fails serving_manager)) !! k
       = Some (Manager.set_shutting_down s)
    /\ Manager.connections
         (fst (Manager.shutdown_all Manager.close_fails serving_manager)) !! k = None.
Proof. exact (shutdown_all_outcome Manager.close_fails serving_manager). Defined.

Lemma check_server_health_effect_witness :
  Manager.states (Health.check_server_health Health.no_pool_healthy serving_manager) !! "a"
  = Some (Manager.set_unhealthy (Manager.running_since 0)).
Proof.
  destruct (check_server_health_effect Health.no_pool_healthy serving_manager)
    as (_ & _ & _ & H & _).
  apply (H "a" (Manager.running_since 0)). vm_compute. reflexivity.
Defined.

Lemma get_stats_counts_witness :
  Manager.total_servers (Manager.get_stats serving_manager 1000)
  = size (Manager.states serving_manager)
  /\ (Manager.active_servers (Manager.get_stats serving_manager 1000)
      <= Manager.total_servers (Manager.get_stats serving_manager 1000))%nat.
Proof.
  destruct (get_stats_counts serving_manager 1000) as (Ht & _ & Hle & _).
  split; [exact Ht | exact Hle].
Defined.

Lemma gateway_error_status_agrees_witness :
  Status.AppError_into_response (AppError_from (ServerNotFound "ghost"))
  = (404%nat, {| Status.error := "Not Found";
                 Status.message := server_not_found_message "ghost" |}).
Proof.
  destruct (gateway_error_status_agrees (ServerNotFound "ghost")) as (_ & _ & H).
  apply (H "ghost"). reflexivity.
Defined.

Lemma list_servers_tag_filter_witness :
  exists infos,
    Http.list_servers fresh_manager 1000 {| Http.tag := None |} = Ok infos
    /\ length infos = size (Registry.servers (Manager.registry fresh_manager)).
Proof.
  destruct (list_servers_tag_filter fresh_manager 1000 {| Http.tag := None |})
    as (infos & Hl & _ & _ & Hlen).
  exists infos. split; [exact Hl | apply Hlen; reflexivity].
Defined.

(** ** What the idle sweep logs *)

Section SweepErrors.
Import Runtime Pool Registry Manager.

Variable close_all : ConnectionPool -> Result unit GatewayError.

(** X26. The idle sweep never gives up on an error: it logs exactly the
    servers that were Running and idle for longer than the timeout and
    whose pool failed to close, each with the error of its pool, and in
    every case the registry and the configuration are unchanged. *)
Theorem idle_sweep_logs_failed_stops (m : ServerManager) (now : N) (k : string)
    (e : GatewayError) :
  ((k, e) ∈ snd (idle_sweep close_all m now)
   <-> exists s pool,
         states m !! k = Some s /\ status s = Running
         /\ (idle_timeout (config m) < now - last_activity s)%N
         /\ connections m !! k = Some pool /\ close_all pool = Err e)
  /\ registry (fst (idle_sweep close_all m now)) = registry m
  /\ config (fst (idle_sweep close_all m now)) = config m.
Proof.
  unfold idle_sweep. split; [|split; [apply stop_each_registry | apply stop_each_config]].
  rewrite (stop_each_errors close_all _ m k e (check_idle_servers_NoDup m now)).
  rewrite check_idle_servers_spec. split.
  - intros [[s [Hs Hidle]] (pool & Hp & Hc)]. apply is_idle_spec in Hidle as [Hrun Hlt].
    exists s, pool. repeat split; assumption.
  - intros (s & pool & Hs & Hrun & Hlt & Hp & Hc). split.
    + exists s. split; [exact Hs|]. apply is_idle_spec. split; assumption.
    + exists pool. split; assumption.
Qed.

End SweepErrors.
